(** * NEODatabase: linking, point lookups, queries and filter checking

    A shallow embedding of [database.py] (class [NEODatabase]) together with
    the record shapes that [extract.py] builds.

    Python objects are references.  The loaders of [extract.py] allocate one
    fresh object per input row, so an object is identified here by its
    position in the collection that holds it: a reference ([ref]) to a
    near-Earth object is an index into [_neos], a reference to a close
    approach an index into [_approaches].  Attribute assignment and
    [list.append] on an object become updates of the record stored at that
    index. *)

From Stdlib Require Import ZArith SpecFloat.
From stdpp Require Import base option list strings gmap.

Local Open Scope string_scope.
Local Open Scope list_scope.
Local Open Scope nat_scope.

(** ** Python-level notions shared by the whole file *)

(** A reference to an object: its position in its collection. *)
Abbreviation ref := nat (only parsing).

(** The exceptions the modelled code can raise. [KeyError] carries the
    message it is built with. *)
Inductive exn :=
  | AttributeError
  | TypeError
  | KeyError (msg : string).

(** What a call ends with: a returned value, or an exception together with
    the state the mutated objects were left in. *)
Inductive outcome (S A : Type) :=
  | Returned (a : A)
  | Raised (e : exn) (st : S).
Arguments Returned {S A} a.
Arguments Raised {S A} e st.

(** A dict comprehension [{k(x): v(x) for x in xs}]: entries are inserted in
    iteration order, so a later element overwrites an earlier one with the
    same key.  [i] is the reference of the head of [xs]. *)
Fixpoint dict_comp {A K V} `{Countable K} (kv : ref → A → K * V)
    (i : ref) (xs : list A) (d : gmap K V) : gmap K V :=
  match xs with
  | [] => d
  | x :: xs' => dict_comp kv (S i) xs' (<[(kv i x).1 := (kv i x).2]> d)
  end.

(** ** The records of [models.py] *)

Module Models.

(** A calendar date and a timestamp; [date] compares lexicographically. *)
Record date := mkDate { year : Z; month : Z; day : Z }.
Record datetime := mkDatetime { dt_date : date; hour : Z; minute : Z }.

Definition date_compare (d1 d2 : date) : comparison :=
  match (year d1 ?= year d2)%Z with
  | Eq => match (month d1 ?= month d2)%Z with
          | Eq => (day d1 ?= day d2)%Z
          | c => c
          end
  | c => c
  end.

(** Modelled from the spec: class [NearEarthObject] of [models.py], which is
    not among the sources.  The fields are the four constructor arguments
    [load_neos] passes (designation, name or [None], diameter or NaN,
    hazardous) and the list of approaches the database appends to. *)
Record NearEarthObject := mkNEO {
  designation : string;
  name : option string;
  diameter : spec_float;
  hazardous : bool;
  approaches : list ref
}.

(** Modelled from the spec: class [CloseApproach] of [models.py], which is
    not among the sources.  The fields are the four constructor arguments
    [load_approaches] passes and the back-reference the database assigns. *)
Record CloseApproach := mkCA {
  _designation : string;
  time : datetime;
  distance : spec_float;
  velocity : spec_float;
  neo : option ref
}.

(** [approach.neo = r] *)
Definition set_neo (r : option ref) (a : CloseApproach) : CloseApproach :=
  {| _designation := _designation a; time := time a; distance := distance a;
     velocity := velocity a; neo := r |}.

(** [neo.approaches.append(approach)], [j] being the approach's reference *)
Definition append_approach (j : ref) (o : NearEarthObject) : NearEarthObject :=
  {| designation := designation o; name := name o; diameter := diameter o;
     hazardous := hazardous o; approaches := approaches o ++ [j] |}.

(** The constructors as [extract.py] calls them: a fresh object is unlinked. *)
Definition new_neo (pdes : string) (nm : option string) (diam : spec_float)
    (pha : bool) : NearEarthObject :=
  mkNEO pdes nm diam pha [].

Definition new_approach (des : string) (t : datetime) (dist v : spec_float)
    : CloseApproach :=
  mkCA des t dist v None.

End Models.
Export Models.

(** ** class NEODatabase *)

Module Database.

Record NEODatabase := mkDB {
  _neos : list NearEarthObject;
  _approaches : list CloseApproach;
  name_to_neo : gmap (option string) ref;
  pdes_to_neo : gmap string ref;
  approach_to_des : gmap ref string
}.

Definition get_neo_by_designation (self : NEODatabase) (designation : string)
    : option ref :=
  pdes_to_neo self !! designation.

Definition get_neo_by_name (self : NEODatabase) (name : option string)
    : option ref :=
  name_to_neo self !! name.

(** One iteration of the linking loop for the approach with reference [j]:
    look the object up, assign the back-reference, append to the object's
    list.  [None] has no attribute [approaches]. *)
Definition link_one (j : ref) (approach : CloseApproach) (self : NEODatabase)
    : outcome NEODatabase NEODatabase :=
  let neo := get_neo_by_designation self (_designation approach) in
  let self :=
    mkDB (_neos self) (alter (set_neo neo) j (_approaches self))
         (name_to_neo self) (pdes_to_neo self) (approach_to_des self) in
  match neo with
  | None => Raised AttributeError self
  | Some i =>
      Returned
        (mkDB (alter (append_approach j) i (_neos self)) (_approaches self)
              (name_to_neo self) (pdes_to_neo self) (approach_to_des self))
  end.

(** [for approach in self._approaches: ...], [todo] being the approaches
    still to visit and [j] the reference of the first of them.  Nothing
    assigns [_designation], so the loop variable's designation is the one of
    the input element. *)
Fixpoint link (j : ref) (todo : list CloseApproach) (self : NEODatabase)
    : outcome NEODatabase NEODatabase :=
  match todo with
  | [] => Returned self
  | approach :: todo' =>
      match link_one j approach self with
      | Returned self' => link (S j) todo' self'
      | Raised e self' => Raised e self'
      end
  end.

Definition __init__ (neos : list NearEarthObject)
    (approaches : list CloseApproach) : outcome NEODatabase NEODatabase :=
  let self :=
    mkDB neos approaches
         (dict_comp (λ i neo, (name neo, i)) 0 neos ∅)
         (dict_comp (λ i neo, (designation neo, i)) 0 neos ∅)
         (dict_comp (λ j approach, (j, _designation approach)) 0 approaches ∅) in
  link 0 approaches self.

(** A filter as [query] sees it: a callable from an approach to a boolean. *)
Definition predicate := CloseApproach → bool.

(** [all(f(approach) for f in filters)] *)
Definition all_filters (filters : list predicate) (approach : CloseApproach)
    : bool :=
  forallb (λ f, f approach) filters.

(** The generator [query], as the list of the approaches it yields. *)
Definition query (self : NEODatabase) (filters : list predicate)
    : list CloseApproach :=
  match filters with
  | [] => _approaches self
  | _ => filter (λ approach, all_filters filters approach = true)
                (_approaches self)
  end.

End Database.
Export Database.

(** ** Filter checking: [NEODatabase._check_filters] *)

Module Filters.

(** The Python values that occur as mapping values and as filter thresholds:
    [None], booleans, floats, strings and dates.  A date is a
    [datetime.date] that is not a [datetime.datetime]; integers, complex
    numbers and timestamps are outside this universe. *)
Inductive value :=
  | VNone
  | VBool (b : bool)
  | VFloat (x : spec_float)
  | VStr (s : string)
  | VDate (d : date).

(** [operator.eq], [operator.le], [operator.ge] *)
Inductive operator := op_eq | op_le | op_ge.

(** The binary64 number 1.0, in canonical form. *)
Definition float_one : spec_float := S754_finite false 4503599627370496 (-52).

(** Booleans are numbers in comparisons: [True] is 1, [False] is 0. *)
Definition as_number (v : value) : option spec_float :=
  match v with
  | VBool b => Some (if b then float_one else S754_zero false)
  | VFloat x => Some x
  | _ => None
  end.

(** [x >= y] on floats: false as soon as one side is NaN. *)
Definition SFgeb (x y : spec_float) : bool :=
  match SFcompare x y with
  | Some (Gt | Eq) => true
  | _ => false
  end.

(** [x == y]: never raises; values of unrelated types are unequal. *)
Definition py_eq (x y : value) : bool :=
  match as_number x, as_number y with
  | Some a, Some b => SFeqb a b
  | _, _ =>
      match x, y with
      | VNone, VNone => true
      | VStr s, VStr t => bool_decide (s = t)
      | VDate d, VDate e =>
          match date_compare d e with Eq => true | _ => false end
      | _, _ => false
      end
  end.

(** [x <= y] and [x >= y]: ordering is defined between two numbers, two
    strings or two dates, and raises [TypeError] otherwise. *)
Definition py_le (x y : value) : exn + bool :=
  match as_number x, as_number y with
  | Some a, Some b => inr (SFleb a b)
  | _, _ =>
      match x, y with
      | VStr s, VStr t => inr (String.leb s t)
      | VDate d, VDate e =>
          inr (match date_compare d e with Gt => false | _ => true end)
      | _, _ => inl TypeError
      end
  end.

Definition py_ge (x y : value) : exn + bool :=
  match as_number x, as_number y with
  | Some a, Some b => inr (SFgeb a b)
  | _, _ =>
      match x, y with
      | VStr s, VStr t => inr (String.leb t s)
      | VDate d, VDate e =>
          inr (match date_compare d e with Lt => false | _ => true end)
      | _, _ => inl TypeError
      end
  end.

Definition apply_op (op : operator) (x y : value) : exn + bool :=
  match op with
  | op_eq => inr (py_eq x y)
  | op_le => py_le x y
  | op_ge => py_ge x y
  end.

(** A Python dict with string keys, in insertion order.  Keys of a dict are
    pairwise distinct; [get] returns the value of the first entry found. *)
Definition dict (V : Type) := list (string * V).

Definition keys {V} (d : dict V) : list string := d.*1.

Fixpoint get {V} (key : string) (d : dict V) : option V :=
  match d with
  | [] => None
  | (k, v) :: d' => if decide (k = key) then Some v else get key d'
  end.

(** What running a generator to its end produces: the values it yields, and
    the exception that ended it, if one did. *)
Record trace := mkTrace { yielded : list bool; raised : option exn }.

Definition yield (b : bool) (rest : trace) : trace :=
  mkTrace (b :: yielded rest) (raised rest).

Definition raise (e : exn) : trace := mkTrace [] (Some e).

Definition stop : trace := mkTrace [] None.

(** The dict literal [mapping], once [approach.neo] is the object [o]. *)
Definition mapping_of (approach : CloseApproach) (o : NearEarthObject)
    : dict (value * operator) :=
  [ ("des", (VStr (_designation approach), op_eq));
    ("date", (VDate (dt_date (time approach)), op_eq));
    ("start_date", (VDate (dt_date (time approach)), op_ge));
    ("end_date", (VDate (dt_date (time approach)), op_le));
    ("distance_min", (VFloat (distance approach), op_ge));
    ("distance_max", (VFloat (distance approach), op_le));
    ("velocity_max", (VFloat (velocity approach), op_le));
    ("velocity_min", (VFloat (velocity approach), op_ge));
    ("name", (from_option VStr VNone (name o), op_eq));
    ("diameter_min", (VFloat (diameter o), op_ge));
    ("diameter_max", (VFloat (diameter o), op_le));
    ("hazardous", (VBool (hazardous o), op_eq)) ].

(** The keys of [mapping], which do not depend on the approach. *)
Definition mapping_keys : list string :=
  [ "des"; "date"; "start_date"; "end_date"; "distance_min"; "distance_max";
    "velocity_max"; "velocity_min"; "name"; "diameter_min"; "diameter_max";
    "hazardous" ].

(** [approach.neo], dereferenced in the store.  A reference always designates
    an object of the store; one that does not is given the behaviour of
    [None]. *)
Definition neo_of (self : NEODatabase) (approach : CloseApproach)
    : option NearEarthObject :=
  neo approach ≫= λ i, _neos self !! i.

(** Evaluating the dict literal.  The entries for ["name"], ["diameter_min"],
    ["diameter_max"] and ["hazardous"] read attributes of [approach.neo],
    which raises [AttributeError] when that is [None]. *)
Definition build_mapping (self : NEODatabase) (approach : CloseApproach)
    : exn + dict (value * operator) :=
  match neo_of self approach with
  | None => inl AttributeError
  | Some o => inr (mapping_of approach o)
  end.

(** The body of [for key in filters.keys(): ...] for one key. A found [op]
    is a pair, hence truthy: [not op] holds exactly when [get] found
    nothing. *)
Definition check_key (mapping : dict (value * operator)) (filters : dict value)
    (key : string) : exn + bool :=
  match get key mapping with
  | None => inl (KeyError ("No option to search for " ++ key)%string)
  | Some op =>
      match default VNone (get key filters) with
      | VNone => inr true
      | filter_expression => apply_op op.2 op.1 filter_expression
      end
  end.

Fixpoint check_keys (mapping : dict (value * operator)) (filters : dict value)
    (ks : list string) : trace :=
  match ks with
  | [] => stop
  | key :: ks' =>
      match check_key mapping filters key with
      | inl e => raise e
      | inr b => yield b (check_keys mapping filters ks')
      end
  end.

(** The generator [_check_filters]; its body runs when the generator is
    first advanced, the mapping being built before any key is looked at. *)
Definition _check_filters (self : NEODatabase) (approach : CloseApproach)
    (filters : dict value) : trace :=
  match build_mapping self approach with
  | inl e => raise e
  | inr mapping => check_keys mapping filters (keys filters)
  end.

(** The canonical filter keys as the specification's table lists them. *)
Definition spec_canonical_keys : list string :=
  [ "designation"; "date"; "start_date"; "end_date"; "distance_min";
    "distance_max"; "velocity_min"; "velocity_max"; "name"; "diameter_min";
    "diameter_max"; "hazardous" ].

End Filters.
Export Filters.

(** ** [_check_filters] as a generator function *)

Module Generators.

(** Reading an attribute of [approach.neo]: [None] has no such attribute. *)
Definition neo_attr (self : NEODatabase) (approach : CloseApproach)
    (read : NearEarthObject → value) : exn + value :=
  match neo_of self approach with
  | None => inl AttributeError
  | Some o => inr (read o)
  end.

(** The twelve entries of the dict literal [mapping], in source order, each
    with the expression that computes its value and its operator. *)
Definition mapping_entries (self : NEODatabase) (approach : CloseApproach)
    : list (string * (exn + value) * operator) :=
  [ ("des", inr (VStr (_designation approach)), op_eq);
    ("date", inr (VDate (dt_date (time approach))), op_eq);
    ("start_date", inr (VDate (dt_date (time approach))), op_ge);
    ("end_date", inr (VDate (dt_date (time approach))), op_le);
    ("distance_min", inr (VFloat (distance approach)), op_ge);
    ("distance_max", inr (VFloat (distance approach)), op_le);
    ("velocity_max", inr (VFloat (velocity approach)), op_le);
    ("velocity_min", inr (VFloat (velocity approach)), op_ge);
    ("name",
     neo_attr self approach (λ o, from_option VStr VNone (name o)), op_eq);
    ("diameter_min", neo_attr self approach (λ o, VFloat (diameter o)), op_ge);
    ("diameter_max", neo_attr self approach (λ o, VFloat (diameter o)), op_le);
    ("hazardous", neo_attr self approach (λ o, VBool (hazardous o)), op_eq) ].

(** Evaluating a dict literal: its entries in order, the first exception
    ending the evaluation. *)
Fixpoint eval_entries (entries : list (string * (exn + value) * operator))
    : exn + dict (value * operator) :=
  match entries with
  | [] => inr []
  | (key, v, op) :: entries' =>
      match v with
      | inl e => inl e
      | inr x =>
          match eval_entries entries' with
          | inl e => inl e
          | inr mapping => inr ((key, (x, op)) :: mapping)
          end
      end
  end.

Definition eval_mapping (self : NEODatabase) (approach : CloseApproach)
    : exn + dict (value * operator) :=
  eval_entries (mapping_entries self approach).

(** A generator object of [_check_filters]: created and not yet started,
    suspended at a [yield] with the keys [ks] still to visit, or finished. *)
Inductive generator :=
  | Created (self : NEODatabase) (approach : CloseApproach)
            (filters : dict value)
  | Suspended (mapping : dict (value * operator)) (filters : dict value)
              (ks : list string)
  | Finished.

(** What advancing a generator gives: a value and the suspended generator,
    the end of the iteration, or an exception. *)
Inductive advance :=
  | Yields (b : bool) (g : generator)
  | StopIteration
  | Raises (e : exn).

(** Calling [_check_filters]: the function has a [yield], so the call binds
    the arguments and returns a generator object; no line of the body runs. *)
Definition _check_filters_call (self : NEODatabase) (approach : CloseApproach)
    (filters : dict value) : exn + generator :=
  inr (Created self approach filters).

(** The loop over the keys, from a key on to the next [yield]. *)
Definition resume (mapping : dict (value * operator)) (filters : dict value)
    (ks : list string) : advance :=
  match ks with
  | [] => StopIteration
  | key :: ks' =>
      match check_key mapping filters key with
      | inl e => Raises e
      | inr b => Yields b (Suspended mapping filters ks')
      end
  end.

(** [next(g)]: a created generator runs the body from its first line, which
    builds the mapping and then enters the loop. *)
Definition next (g : generator) : advance :=
  match g with
  | Created self approach filters =>
      match eval_mapping self approach with
      | inl e => Raises e
      | inr mapping => resume mapping filters (keys filters)
      end
  | Suspended mapping filters ks => resume mapping filters ks
  | Finished => StopIteration
  end.

(** Advancing a generator until it ends, at most [fuel] times. *)
Fixpoint exhaust (fuel : nat) (g : generator) : trace :=
  match fuel with
  | O => stop
  | S fuel' =>
      match next g with
      | Yields b g' => yield b (exhaust fuel' g')
      | StopIteration => stop
      | Raises e => raise e
      end
  end.

End Generators.
Export Generators.

(** ** Sample data *)

Module Samples.

Definition jan_1_2020 : datetime := mkDatetime (mkDate 2020 1 1) 0 0.

(** 0.5 and 10.0 as binary64 numbers *)
Definition float_half : spec_float := S754_finite false 4503599627370496 (-53).
Definition float_ten : spec_float := S754_finite false 5629499534213120 (-49).

Definition unnamed_neo : NearEarthObject :=
  new_neo "2020AB" None S754_nan false.

Definition approach_2020AB : CloseApproach :=
  new_approach "2020AB" jan_1_2020 float_half float_ten.

Definition approach_9999XYZ : CloseApproach :=
  new_approach "9999XYZ" jan_1_2020 float_half float_ten.

Definition eros : NearEarthObject :=
  new_neo "433" (Some "Eros") S754_nan false.

(** A second object carrying the designation of [eros]. *)
Definition unnamed_433 : NearEarthObject :=
  new_neo "433" None S754_nan true.

Definition approach_433 : CloseApproach :=
  new_approach "433" jan_1_2020 float_half float_ten.

(** The database of the specification's scenario, after linking. *)
Definition linked_db : NEODatabase :=
  match __init__ [unnamed_neo] [approach_2020AB] with
  | Returned db => db
  | Raised _ db => db
  end.

(** A database with a named and an unnamed object. *)
Definition eros_db : NEODatabase :=
  match __init__ [unnamed_neo; eros] [approach_433; approach_2020AB] with
  | Returned db => db
  | Raised _ db => db
  end.

Definition linked_approach : CloseApproach :=
  set_neo (Some 0) approach_2020AB.

Definition unnamed_neo_linked : NearEarthObject :=
  append_approach 0 unnamed_neo.

End Samples.

(** ** The loaders of [extract.py] *)

Module Extract.

(** The exceptions the loaders can end with: [KeyError] for a column a CSV
    row lacks, [ValueError] for a field name absent from the JSON field list
    or a number or timestamp that does not parse, [IndexError] for a JSON row
    shorter than a field's position. *)
Inductive load_exn :=
  | RowKeyError (column : string)
  | ValueError
  | IndexError.

(** The JSON document of close approaches, as [json.load] returns it: the
    list under ["fields"] and the rows under ["data"], each row a list of
    strings. *)
Record cad_json := mkJson { fields : list string; data : list (list string) }.

(** [l.index(x)]: the position of the first occurrence, if any. *)
Fixpoint index (x : string) (l : list string) : option nat :=
  match l with
  | [] => None
  | y :: l' => if decide (y = x) then Some 0 else S <$> index x l'
  end.

(** The positions of the required fields ("des", "cd", "dist", "v_rel"),
    the dict [field_indices]. *)
Record field_positions := mkPositions {
  des_idx : nat; cd_idx : nat; dist_idx : nat; v_rel_idx : nat
}.

(** A loop [for x in xs: out.append(body(x))] whose body may raise: the
    results in order, or the exception of the first element that raises. *)
Fixpoint for_each {A B} (body : A → load_exn + B) (xs : list A)
    : load_exn + list B :=
  match xs with
  | [] => inr []
  | x :: xs' =>
      match body x with
      | inl e => inl e
      | inr y =>
          match for_each body xs' with
          | inl e => inl e
          | inr ys => inr (y :: ys)
          end
      end
  end.

Section Loaders.

(** Python's [float] on a string, [None] when it raises [ValueError]. *)
Variable float_of_str : string → option spec_float.

(** [helpers.cd_to_datetime], which is not among the sources: it returns a
    timestamp or raises. *)
Variable cd_to_datetime : string → load_exn + datetime.

(** [row[column]] on a row of [csv.DictReader].  A row is taken to hold a
    string under every column it has; a row shorter than the header, which
    the reader pads with [None], is outside the model. *)
Definition column (row : dict string) (c : string) : load_exn + string :=
  match get c row with
  | Some cell => inr cell
  | None => inl (RowKeyError c)
  end.

(** The body of the loop of [load_neos] for one row. An empty string is
    falsy: an empty diameter gives NaN without [float] being called, an empty
    name gives [None]. *)
Definition neo_of_row (row : dict string) : load_exn + NearEarthObject :=
  match column row "diameter" with
  | inl e => inl e
  | inr d =>
      match (if decide (d = "") then Some S754_nan else float_of_str d) with
      | None => inl ValueError
      | Some diameter =>
          match column row "pha" with
          | inl e => inl e
          | inr pha =>
              match column row "name" with
              | inl e => inl e
              | inr nm =>
                  match column row "pdes" with
                  | inl e => inl e
                  | inr pdes =>
                      inr (new_neo pdes
                             (if decide (nm = "") then None else Some nm)
                             diameter (bool_decide (pha = "Y")))
                  end
              end
          end
      end
  end.

(** [load_neos], from the rows of the reader on: the objects in row order,
    or the exception of the first row that raises. *)
Definition load_neos (reader : list (dict string))
    : load_exn + list NearEarthObject :=
  for_each neo_of_row reader.

(** [js["fields"].index(field_name)] *)
Definition field_index (fs : list string) (field_name : string)
    : load_exn + nat :=
  match index field_name fs with
  | Some i => inr i
  | None => inl ValueError
  end.

(** The dict comprehension [field_indices], evaluated in the order of
    [required_fields]. *)
Definition field_indices (fs : list string) : load_exn + field_positions :=
  match field_index fs "des" with
  | inl e => inl e
  | inr i_des =>
      match field_index fs "cd" with
      | inl e => inl e
      | inr i_cd =>
          match field_index fs "dist" with
          | inl e => inl e
          | inr i_dist =>
              match field_index fs "v_rel" with
              | inl e => inl e
              | inr i_v_rel => inr (mkPositions i_des i_cd i_dist i_v_rel)
              end
          end
      end
  end.

(** [row[field_idx]] *)
Definition cell_at (row : list string) (field_idx : nat) : load_exn + string :=
  match row !! field_idx with
  | Some cell => inr cell
  | None => inl IndexError
  end.

(** The body of the loop of [load_approaches] for one row: the four cells
    are read first, then converted. *)
Definition approach_of_row (idx : field_positions) (row : list string)
    : load_exn + CloseApproach :=
  match cell_at row (des_idx idx) with
  | inl e => inl e
  | inr des =>
      match cell_at row (cd_idx idx) with
      | inl e => inl e
      | inr cd =>
          match cell_at row (dist_idx idx) with
          | inl e => inl e
          | inr dist =>
              match cell_at row (v_rel_idx idx) with
              | inl e => inl e
              | inr v_rel =>
                  match cd_to_datetime cd with
                  | inl e => inl e
                  | inr approach_time =>
                      match float_of_str dist with
                      | None => inl ValueError
                      | Some approach_dist =>
                          match float_of_str v_rel with
                          | None => inl ValueError
                          | Some approach_velocity =>
                              inr (new_approach des approach_time
                                     approach_dist approach_velocity)
                          end
                      end
                  end
              end
          end
      end
  end.

(** [load_approaches], from the parsed JSON document on. *)
Definition load_approaches (js : cad_json) : load_exn + list CloseApproach :=
  match field_indices (fields js) with
  | inl e => inl e
  | inr idx => for_each (approach_of_row idx) (data js)
  end.

(** The loop body of [load_approaches], in terms of the cells found under
    the four field names. *)
Definition approach_of_cells (cell : string → option string)
    : load_exn + CloseApproach :=
  match cell "des", cell "cd", cell "dist", cell "v_rel" with
  | Some des, Some cd, Some dist, Some v_rel =>
      match cd_to_datetime cd with
      | inl e => inl e
      | inr approach_time =>
          match float_of_str dist, float_of_str v_rel with
          | Some approach_dist, Some approach_velocity =>
              inr (new_approach des approach_time approach_dist
                     approach_velocity)
          | _, _ => inl ValueError
          end
      end
  | _, _, _, _ => inl IndexError
  end.

End Loaders.

(** The four field names [load_approaches] resolves. *)
Definition required_fields : list string := ["des"; "cd"; "dist"; "v_rel"].

(** The cell of a row under a field name. *)
Definition named_cell (fs : list string) (row : list string) (f : string)
    : option string :=
  index f fs ≫= λ i, row !! i.

End Extract.

(** ** Sample input of the loaders *)

Module LoaderSamples.
Import Extract.

(** A [float] that knows the two numbers of the samples. *)
Definition toy_float (s : string) : option spec_float :=
  if decide (s = "0.5") then Some Samples.float_half
  else if decide (s = "10.0") then Some Samples.float_ten
  else None.

(** A [cd_to_datetime] that knows the one timestamp of the samples. *)
Definition toy_cd (s : string) : load_exn + datetime :=
  if decide (s = "2020-Jan-01 00:00") then inr Samples.jan_1_2020
  else inl ValueError.

Definition csv_rows : list (dict string) :=
  [ [("pdes", "2020AB"); ("name", ""); ("pha", "N"); ("diameter", "")];
    [("pdes", "433"); ("name", "Eros"); ("pha", "Y"); ("diameter", "10.0")] ].

Definition cad : cad_json :=
  mkJson ["des"; "orbit_id"; "cd"; "dist"; "v_rel"]
         [ ["433"; "7"; "2020-Jan-01 00:00"; "0.5"; "10.0"];
           ["2020AB"; "1"; "2020-Jan-01 00:00"; "0.5"; "10.0"] ].

(** The same document with its columns in another order. *)
Definition cad_reordered : cad_json :=
  mkJson ["v_rel"; "dist"; "cd"; "des"]
         [ ["10.0"; "0.5"; "2020-Jan-01 00:00"; "433"];
           ["10.0"; "0.5"; "2020-Jan-01 00:00"; "2020AB"] ].

End LoaderSamples.

(** ** Notions used to state the properties *)

(** An index [{key(x): x for x in xs}] over a collection of objects. *)
Definition index_by {A K} `{Countable K} (key : A → K) (xs : list A)
    : gmap K ref :=
  dict_comp (λ i x, (key x, i)) 0 xs ∅.

(** The state a call leaves behind, whether it returned or raised. *)
Definition final_state (r : outcome NEODatabase NEODatabase) : NEODatabase :=
  match r with
  | Returned self => self
  | Raised _ self => self
  end.

(** [o] after appending the references [js], in order. *)
Definition extend (js : list ref) (o : NearEarthObject) : NearEarthObject :=
  mkNEO (designation o) (name o) (diameter o) (hazardous o)
        (approaches o ++ js).

(** The references the loop appends to the object [i]: those of the
    approaches whose designation the index [pdes] sends to [i], up to the
    first approach the index does not know. *)
Fixpoint appended (pdes : gmap string ref) (i j : ref)
    (todo : list CloseApproach) : list ref :=
  match todo with
  | [] => []
  | a :: todo' =>
      match pdes !! _designation a with
      | None => []
      | Some i' =>
          (if decide (i' = i) then [j] else []) ++ appended pdes i (S j) todo'
      end
  end.

(** How many approaches the loop assigns a back-reference to: all of them,
    or those up to and including the first one the index does not know. *)
Fixpoint visited (pdes : gmap string ref) (todo : list CloseApproach) : nat :=
  match todo with
  | [] => 0
  | a :: todo' =>
      match pdes !! _designation a with
      | None => 1
      | Some _ => S (visited pdes todo')
      end
  end.



(** The database as [__init__] has it when the linking loop starts. *)
Definition indexed (neos : list NearEarthObject) (cas : list CloseApproach)
    : NEODatabase :=
  mkDB neos cas (index_by name neos) (index_by designation neos)
       (dict_comp (λ j approach, (j, _designation approach)) 0 cas ∅).

(** What the loop assigns to the [neo] of a visited approach. *)
Definition linked_by (pdes : gmap string ref) (a : CloseApproach)
    : CloseApproach :=
  set_neo (pdes !! _designation a) a.

(** Settle a decidable closed proposition by evaluating its decision. *)
Ltac by_decision := apply (bool_decide_unpack _); by vm_compute.

(** * Properties *)

(** ** Dict comprehensions *)

Section DictComp.
Context {A K V : Type} `{Countable K}.
Implicit Types (kv : ref → A → K * V) (xs : list A) (d : gmap K V).

Lemma dict_comp_snoc kv i xs x d :
  dict_comp kv i (xs ++ [x]) d =
  <[(kv (i + length xs) x).1 := (kv (i + length xs) x).2]> (dict_comp kv i xs d).
Proof.
  revert i d. induction xs as [|y xs IH]; intros i d; simpl.
  - by rewrite Nat.add_0_r.
  - rewrite IH. by replace (S i + length xs) with (i + S (length xs)) by lia.
Qed.
End DictComp.

Section Index.
Context {A K : Type} `{Countable K} (key : A → K).
Implicit Types (xs : list A) (x : A) (k : K) (r : ref).

Lemma index_by_snoc xs x k :
  index_by key (xs ++ [x]) !! k =
  if decide (key x = k) then Some (length xs) else index_by key xs !! k.
Proof.
  unfold index_by. rewrite dict_comp_snoc. simpl. by rewrite lookup_insert.
Qed.

(** A key absent from the index is the key of no element. *)
Lemma index_by_None xs k :
  index_by key xs !! k = None ↔ ∀ x, x ∈ xs → key x ≠ k.
Proof.
  induction xs as [|x xs IH] using rev_ind.
  - split; [intros _ x Hx; by apply elem_of_nil in Hx | done].
  - rewrite index_by_snoc. case_decide as Hk.
    + split; [done | intros Hall].
      destruct (Hall x); [| done].
      apply elem_of_app. right. by apply list_elem_of_singleton.
    + rewrite IH. split.
      * intros Hall y [Hy | ->%list_elem_of_singleton]%elem_of_app; auto.
      * intros Hall y Hy. apply Hall, elem_of_app. by left.
Qed.

(** The index sends a key to the last element that carries it. *)
Lemma index_by_Some xs k r :
  index_by key xs !! k = Some r ↔
  ∃ x, xs !! r = Some x ∧ key x = k ∧
       ∀ p y, r < p → xs !! p = Some y → key y ≠ k.
Proof.
  revert r. induction xs as [|x xs IH] using rev_ind; intros r.
  - split; [done | by intros (x & Hx & _)].
  - rewrite index_by_snoc. case_decide as Hk.
    + split.
      * intros [= <-]. exists x. split_and!; [| done |].
        -- by rewrite lookup_app_r, Nat.sub_diag.
        -- intros p y Hp Hy. apply lookup_lt_Some in Hy.
           rewrite length_app in Hy. simpl in Hy. lia.
      * intros (y & Hy & Hky & Hlast). f_equal.
        pose proof (lookup_lt_Some _ _ _ Hy) as Hr.
        rewrite length_app in Hr. simpl in Hr.
        destruct (decide (r = length xs)) as [|Hne]; [done | exfalso].
        apply (Hlast (length xs) x); [lia | | done].
        by rewrite lookup_app_r, Nat.sub_diag.
    + rewrite IH. split.
      * intros (y & Hy & Hky & Hlast). exists y. split_and!; [| done |].
        -- by apply lookup_app_l_Some.
        -- intros p z Hp Hz.
           destruct (decide (p < length xs)) as [Hlt|Hge].
           ++ rewrite lookup_app_l in Hz by done. eauto.
           ++ rewrite lookup_app_r in Hz by lia.
              destruct (p - length xs) as [|n]; simpl in Hz; [|done].
              by injection Hz as <-.
      * intros (y & Hy & Hky & Hlast).
        assert (r < length xs) as Hr.
        { pose proof (lookup_lt_Some _ _ _ Hy) as Hr.
          rewrite length_app in Hr. simpl in Hr.
          destruct (decide (r = length xs)) as [->|]; [|lia].
          rewrite lookup_app_r, Nat.sub_diag in Hy by done.
          simpl in Hy. congruence. }
        exists y. rewrite lookup_app_l in Hy by done. split_and!; [done..|].
        intros p z Hp Hz. apply (Hlast p z Hp). by apply lookup_app_l_Some.
Qed.

(** With pairwise distinct keys, every element is found under its key. *)
Lemma index_by_unique xs r x :
  (∀ p q y z, xs !! p = Some y → xs !! q = Some z → key y = key z → p = q) →
  xs !! r = Some x → index_by key xs !! key x = Some r.
Proof.
  intros Huniq Hx. apply index_by_Some. exists x. split_and!; [done..|].
  intros p y Hp Hy Hk. specialize (Huniq _ _ _ _ Hy Hx Hk). lia.
Qed.
End Index.

(** ** The linking loop *)

Section Linking.
Implicit Types (self : NEODatabase) (todo : list CloseApproach)
  (o : NearEarthObject) (a : CloseApproach) (i j p : ref).

Lemma extend_nil o : extend [] o = o.
Proof. destruct o. unfold extend. simpl. by rewrite app_nil_r. Qed.

Lemma extend_append j js o :
  extend js (append_approach j o) = extend (j :: js) o.
Proof. unfold extend, append_approach. simpl. by rewrite <- app_assoc. Qed.

(** The loop leaves the three indexes alone. *)
Lemma link_indexes todo j self :
  name_to_neo (final_state (link j todo self)) = name_to_neo self ∧
  pdes_to_neo (final_state (link j todo self)) = pdes_to_neo self ∧
  approach_to_des (final_state (link j todo self)) = approach_to_des self.
Proof.
  revert j self. induction todo as [|a todo IH]; intros j self; [done|].
  simpl. unfold link_one, get_neo_by_designation.
  destruct (pdes_to_neo self !! _designation a) as [i|]; [|done].
  exact (IH (S j) (mkDB (alter (append_approach j) i (_neos self))
    (alter (set_neo (Some i)) j (_approaches self)) (name_to_neo self)
    (pdes_to_neo self) (approach_to_des self))).
Qed.

(** The loop returns exactly when the index knows every designation, and
    raises [AttributeError] otherwise. *)
Lemma link_returns todo j self :
  Forall (λ a, is_Some (pdes_to_neo self !! _designation a)) todo →
  ∃ self', link j todo self = Returned self'.
Proof.
  intros Hall. revert j self Hall.
  induction todo as [|a todo IH]; intros j self Hall; [by eexists|].
  apply Forall_cons in Hall as [[i Hi] Hall].
  simpl. unfold link_one, get_neo_by_designation. rewrite Hi. by apply IH.
Qed.

Lemma link_raises todo j self :
  Exists (λ a, pdes_to_neo self !! _designation a = None) todo →
  ∃ self', link j todo self = Raised AttributeError self'.
Proof.
  intros Hex. revert j self Hex.
  induction todo as [|a todo IH]; intros j self Hex.
  - by apply Exists_nil in Hex.
  - simpl. unfold link_one, get_neo_by_designation.
    destruct (pdes_to_neo self !! _designation a) as [i|] eqn:Hi.
    + apply IH. simpl. apply Exists_cons in Hex as [Hex|Hex]; [congruence|done].
    + by eexists.
Qed.

Lemma link_Returned_inv todo j self self' :
  link j todo self = Returned self' →
  Forall (λ a, is_Some (pdes_to_neo self !! _designation a)) todo.
Proof.
  revert j self. induction todo as [|a todo IH]; intros j self Hlink; [done|].
  simpl in Hlink. unfold link_one, get_neo_by_designation in Hlink.
  destruct (pdes_to_neo self !! _designation a) as [i|] eqn:Hi; [|done].
  constructor; [by eexists|]. by apply IH in Hlink.
Qed.

(** The objects after the loop: each one extended by what was appended. *)
Lemma link_neos todo j self i :
  _neos (final_state (link j todo self)) !! i =
  extend (appended (pdes_to_neo self) i j todo) <$> _neos self !! i.
Proof.
  revert j self. induction todo as [|a todo IH]; intros j self; simpl.
  - destruct (_neos self !! i) as [o|]; simpl; [|done]. by rewrite extend_nil.
  - unfold link_one, get_neo_by_designation.
    destruct (pdes_to_neo self !! _designation a) as [i'|]; simpl.
    + rewrite IH. simpl. case_decide as Hi; simpl.
      * subst i'. rewrite list_lookup_alter_eq, <- option_fmap_compose.
        apply option_fmap_ext. intros o. apply extend_append.
      * by rewrite list_lookup_alter_ne.
    + destruct (_neos self !! i) as [o|]; simpl; [|done]. by rewrite extend_nil.
Qed.

(** The approaches after the loop: a visited one has the back-reference
    the index gives for its designation, the others are untouched. *)
Lemma link_approaches todo j self p :
  _approaches (final_state (link j todo self)) !! p =
  match todo !! (p - j) with
  | Some a =>
      if decide (j ≤ p < j + visited (pdes_to_neo self) todo)
      then set_neo (pdes_to_neo self !! _designation a) <$> _approaches self !! p
      else _approaches self !! p
  | None => _approaches self !! p
  end.
Proof.
  revert j self. induction todo as [|a todo IH]; intros j self; [done|].
  simpl. unfold link_one, get_neo_by_designation.
  destruct (pdes_to_neo self !! _designation a) as [i|] eqn:Hi; simpl.
  - rewrite IH. simpl.
    destruct (decide (p = j)) as [->|Hne].
    + rewrite Nat.sub_diag. simpl.
      replace (j - S j) with 0 by lia.
      rewrite list_lookup_alter_eq, Hi.
      rewrite decide_True by lia.
      destruct todo; simpl; [done|]. by rewrite decide_False by lia.
    + rewrite list_lookup_alter_ne by done.
      destruct (decide (p < j)) as [Hlt|Hge].
      * replace (p - S j) with 0 by lia. replace (p - j) with 0 by lia.
        simpl. rewrite (decide_False (P := j ≤ p < _)) by lia.
        destruct todo; simpl; [done|]. by rewrite decide_False by lia.
      * replace (p - j) with (S (p - S j)) by lia. simpl.
        destruct (todo !! (p - S j)); [|done].
        apply decide_ext. lia.
  - destruct (decide (p = j)) as [->|Hne].
    + rewrite Nat.sub_diag. simpl. rewrite Hi.
      rewrite list_lookup_alter_eq. by rewrite decide_True by lia.
    + rewrite list_lookup_alter_ne by done.
      destruct (p - j) as [|n] eqn:Hpj; simpl.
      * by rewrite decide_False by lia.
      * destruct (todo !! n); [|done]. by rewrite decide_False by lia.
Qed.
End Linking.

(** ** What the linking loop appends, by designation *)

Section Sharing.
Implicit Types (todo : list CloseApproach) (a : CloseApproach)
  (i j k p x : ref) (D : string).

Lemma appended_elem pdes i j todo x :
  x ∈ appended pdes i j todo →
  j ≤ x ∧ ∃ a, todo !! (x - j) = Some a ∧ pdes !! _designation a = Some i.
Proof.
  revert j. induction todo as [|a todo IH]; intros j; simpl.
  - by intros ?%elem_of_nil.
  - destruct (pdes !! _designation a) as [i'|] eqn:Hi;
      [|by intros ?%elem_of_nil].
    intros [Hx|Hx]%elem_of_app.
    + case_decide; [|by apply elem_of_nil in Hx].
      apply list_elem_of_singleton in Hx as ->. subst i'.
      split; [done|]. exists a. by rewrite Nat.sub_diag.
    + destruct (IH _ Hx) as (Hle & b & Hb & Hpb). split; [lia|].
      exists b. by replace (x - j) with (S (x - S j)) by lia.
Qed.





End Sharing.

(** ** The constructor *)

Section Constructor.
Implicit Types (neos : list NearEarthObject) (cas : list CloseApproach)
  (o O : NearEarthObject) (a E : CloseApproach) (i j p : ref).

Lemma init_link neos cas : __init__ neos cas = link 0 cas (indexed neos cas).
Proof. reflexivity. Qed.

(** A database the constructor returned has the indexes of its input. *)
Lemma init_indexes neos cas db :
  __init__ neos cas = Returned db →
  name_to_neo db = index_by name neos ∧
  pdes_to_neo db = index_by designation neos.
Proof.
  rewrite init_link. intros Hlink.
  destruct (link_indexes cas 0 (indexed neos cas)) as (Hn & Hp & _).
  rewrite Hlink in Hn, Hp. by simpl in *.
Qed.

(** Linking only ever changes an object's list of approaches. *)
Lemma init_neos neos cas i :
  _neos (final_state (__init__ neos cas)) !! i =
  extend (appended (index_by designation neos) i 0 cas) <$> neos !! i.
Proof. rewrite init_link. apply link_neos. Qed.
End Constructor.

(** C1, counterexample: with the one object "2020AB" and an approach whose
    designation "9999XYZ" matches no object, the constructor does not
    complete; it raises [AttributeError]. *)
Lemma init_unmatched_counterexample :
  ∃ self',
    __init__ [Samples.unnamed_neo]
             [Samples.approach_2020AB; Samples.approach_9999XYZ]
    = Raised AttributeError self'.
Proof.
  rewrite init_link. apply link_raises.
  apply Exists_cons_tl, Exists_cons_hd. by vm_compute.
Qed.

(** C1, amended: on unlinked input collections in which some approach's
    designation matches no object's designation, [__init__] raises
    [AttributeError] instead of returning; in the state it leaves behind,
    every such approach has its [neo] back-reference unset and occurs in no
    object's list of approaches. *)
Theorem init_unmatched_raises
    (neos : list NearEarthObject) (cas : list CloseApproach) :
  Forall (λ o, approaches o = []) neos →
  Forall (λ a, neo a = None) cas →
  (∃ a, a ∈ cas ∧ ∀ o, o ∈ neos → designation o ≠ _designation a) →
  ∃ self',
    __init__ neos cas = Raised AttributeError self' ∧
    ∀ j a, cas !! j = Some a →
      (∀ o, o ∈ neos → designation o ≠ _designation a) →
      neo <$> _approaches self' !! j = Some None ∧
      ∀ o', o' ∈ _neos self' → j ∉ approaches o'.
Proof.
  intros Hneos Hcas (a0 & Ha0 & Hun0).
  destruct (link_raises cas 0 (indexed neos cas)) as [self' Hlink].
  { apply Exists_exists. exists a0. split; [done|]. by apply index_by_None. }
  exists self'. split; [done|]. intros j a Hj Hun.
  assert (final_state (link 0 cas (indexed neos cas)) = self') as Hfin
    by (by rewrite Hlink).
  assert (index_by designation neos !! _designation a = None) as Hnone
    by (by apply index_by_None).
  split.
  - rewrite <- Hfin, link_approaches, Nat.sub_0_r, Hj. simpl.
    case_decide; simpl; rewrite Hj; simpl; [by rewrite Hnone|].
    f_equal. apply (Forall_lookup_1 _ _ _ _ Hcas Hj).
  - intros o' [i Hi]%list_elem_of_lookup Hin.
    rewrite <- Hfin, link_neos in Hi. simpl in Hi.
    destruct (neos !! i) as [o|] eqn:Ho; [|done].
    injection Hi as <-. simpl in Hin.
    rewrite (Forall_lookup_1 _ _ _ _ Hneos Ho) in Hin. simpl in Hin.
    apply appended_elem in Hin as (_ & b & Hb & Hpb).
    rewrite Nat.sub_0_r in Hb. congruence.
Qed.

(** The unmatched approach "9999XYZ" comes first; "2020AB" is never visited. *)
Lemma init_unmatched_raises_witness :
  ∃ self',
    __init__ [Samples.unnamed_neo]
             [Samples.approach_9999XYZ; Samples.approach_2020AB]
    = Raised AttributeError self' ∧
    ∀ j a,
      [Samples.approach_9999XYZ; Samples.approach_2020AB] !! j = Some a →
      (∀ o, o ∈ [Samples.unnamed_neo] → designation o ≠ _designation a) →
      neo <$> _approaches self' !! j = Some None ∧
      ∀ o', o' ∈ _neos self' → j ∉ approaches o'.
Proof.
  apply (init_unmatched_raises [Samples.unnamed_neo]
           [Samples.approach_9999XYZ; Samples.approach_2020AB]).
  - by repeat constructor.
  - by repeat constructor.
  - exists Samples.approach_9999XYZ. split; [by left|].
    intros o ->%list_elem_of_singleton. by vm_compute.
Defined.




(** ** Point lookups *)

(** C6: when designations are pairwise distinct and non-empty names are
    pairwise distinct, every object of the input is what
    [get_neo_by_designation] returns for its designation and, if its name is
    a non-empty string, what [get_neo_by_name] returns for its name; the
    object found is the input object, with only its approaches filled in. *)
Theorem lookup_round_trip
    (neos : list NearEarthObject) (cas : list CloseApproach)
    (db : NEODatabase) (i : ref) (O : NearEarthObject) :
  (∀ p q y z, neos !! p = Some y → neos !! q = Some z →
     designation y = designation z → p = q) →
  (∀ p q y z s, neos !! p = Some y → neos !! q = Some z →
     name y = Some s → name z = Some s → s ≠ "" → p = q) →
  __init__ neos cas = Returned db →
  neos !! i = Some O →
  get_neo_by_designation db (designation O) = Some i ∧
  (∀ s, name O = Some s → s ≠ "" → get_neo_by_name db (Some s) = Some i) ∧
  ∃ O', _neos db !! i = Some O' ∧
        designation O' = designation O ∧ name O' = name O ∧
        diameter O' = diameter O ∧ hazardous O' = hazardous O.
Proof.
  intros Hdes Hname Hinit HO.
  destruct (init_indexes _ _ _ Hinit) as [Hn Hp].
  unfold get_neo_by_designation, get_neo_by_name. rewrite Hn, Hp.
  split_and!.
  - by apply index_by_unique.
  - intros s Hs Hne. apply index_by_Some. exists O. split_and!; [done..|].
    intros p y Hlt Hy Hys. specialize (Hname _ _ _ _ s Hy HO Hys Hs Hne). lia.
  - pose proof (init_neos neos cas i) as Hi. rewrite Hinit, HO in Hi.
    eexists. split; [exact Hi|done].
Qed.

(** Eros, the second of two objects, found by designation and by name. *)
Lemma lookup_round_trip_witness :
  get_neo_by_designation Samples.eros_db (designation Samples.eros) = Some 1 ∧
  (∀ s, name Samples.eros = Some s → s ≠ "" →
        get_neo_by_name Samples.eros_db (Some s) = Some 1) ∧
  ∃ O', _neos Samples.eros_db !! 1 = Some O' ∧
        designation O' = designation Samples.eros ∧
        name O' = name Samples.eros ∧
        diameter O' = diameter Samples.eros ∧
        hazardous O' = hazardous Samples.eros.
Proof.
  apply (lookup_round_trip [Samples.unnamed_neo; Samples.eros]
           [Samples.approach_433; Samples.approach_2020AB] Samples.eros_db 1
           Samples.eros).
  - intros [|[|p]] [|[|q]] y z Hy Hz; simpl in Hy, Hz; try done;
      injection Hy as <-; injection Hz as <-; by vm_compute.
  - intros [|[|p]] [|[|q]] y z s Hy Hz; simpl in Hy, Hz; try done;
      injection Hy as <-; injection Hz as <-; by vm_compute.
  - by vm_compute.
  - reflexivity.
Defined.

(** Whatever the input, an object without a name is what the name index
    holds under the key [None], provided no later object lacks a name too. *)
Lemma name_index_unnamed
    (neos : list NearEarthObject) (cas : list CloseApproach)
    (db : NEODatabase) (i : ref) (O : NearEarthObject) :
  __init__ neos cas = Returned db →
  neos !! i = Some O → name O = None →
  (∀ p o, i < p → neos !! p = Some o → name o ≠ None) →
  get_neo_by_name db None = Some i.
Proof.
  intros Hinit HO Hnone Hlast.
  destruct (init_indexes _ _ _ Hinit) as [Hn _].
  unfold get_neo_by_name. rewrite Hn. apply index_by_Some. by exists O.
Qed.

(** C5, the code at the failing input: the object "2020AB" has no name, yet
    the name index has an entry under [None] and [get_neo_by_name(None)]
    returns that object; likewise an object whose name is the empty string
    is returned for the empty string. *)
Theorem name_index_none_key :
  (∃ db,
     __init__ [Samples.unnamed_neo] [Samples.approach_2020AB] = Returned db ∧
     name Samples.unnamed_neo = None ∧
     name_to_neo db !! None = Some 0 ∧
     get_neo_by_name db None = Some 0) ∧
  (∃ db,
     __init__ [new_neo "2020AB" (Some "") S754_nan false]
              [Samples.approach_2020AB] = Returned db ∧
     get_neo_by_name db (Some "") = Some 0).
Proof.
  split; eexists; (split; [by vm_compute|]); by vm_compute.
Qed.

(** ** Queries *)

(** C3: without filters, [query] yields the approach collection itself:
    every approach, in collection order, each position exactly once. *)
Theorem query_no_filters (self : NEODatabase) :
  query self [] = _approaches self ∧
  length (query self []) = length (_approaches self) ∧
  ∀ p, query self [] !! p = _approaches self !! p.
Proof. done. Qed.

(** With or without filters, [query] keeps the approaches all filters
    accept. *)
Lemma query_filter (self : NEODatabase) (filters : list predicate) :
  query self filters =
  filter (λ E, all_filters filters E = true) (_approaches self).
Proof.
  destruct filters as [|f filters]; [|done]. simpl.
  induction (_approaches self) as [|E l IH]; [done|].
  rewrite filter_cons. simpl. by rewrite <- IH.
Qed.

(** C2: an approach is yielded by [query] exactly when it is in the
    collection and every predicate is true of it, and the yielded approaches
    come in collection order (they form a subsequence of the collection). *)
Theorem query_conjunction (self : NEODatabase) (filters : list predicate)
    (E : CloseApproach) :
  (E ∈ query self filters ↔
   E ∈ _approaches self ∧ ∀ P, P ∈ filters → P E = true) ∧
  sublist (query self filters) (_approaches self) ∧
  query self filters =
  filter (λ E', Forall (λ P : predicate, P E' = true) filters)
         (_approaches self).
Proof.
  assert (∀ E', all_filters filters E' = true ↔
                Forall (λ P : predicate, P E' = true) filters) as Hall.
  { intros E'. unfold all_filters. rewrite forallb_forall, Forall_forall.
    by setoid_rewrite list_elem_of_In. }
  rewrite query_filter. split_and!.
  - rewrite list_elem_of_filter, Hall, Forall_forall. tauto.
  - apply sublist_filter.
  - apply list_filter_iff. intros E'. apply Hall.
Qed.

(** ** Filter checking *)

Section CheckFilters.
Implicit Types (self : NEODatabase) (approach : CloseApproach)
  (o : NearEarthObject) (filters : dict value) (key : string) (v : value)
  (mapping : dict (value * operator)).

Lemma get_None {V} key (d : dict V) : get key d = None ↔ key ∉ keys d.
Proof.
  induction d as [|[k x] d IH]; simpl.
  - split; [intros _ ?%elem_of_nil | ]; done.
  - rewrite not_elem_of_cons. case_decide as Hk.
    + split; [done | by intros [[] _]].
    + rewrite IH. split; [by intros ? | by intros [_ ?]].
Qed.

(** Looking up a key of a dict is not affected by entries added after. *)
Lemma get_app_l {V} key (d d' : dict V) :
  key ∈ keys d → get key (d ++ d') = get key d.
Proof.
  induction d as [|[k x] d IH]; simpl; [by intros ?%elem_of_nil|].
  intros Hin. case_decide as Hk; [done|].
  apply IH. apply elem_of_cons in Hin as [->|]; done.
Qed.

Lemma mapping_of_keys approach o : keys (mapping_of approach o) = mapping_keys.
Proof. reflexivity. Qed.

(** The comparisons raise nothing but [TypeError]. *)
Lemma apply_op_exn op x y e : apply_op op x y = inl e → e = TypeError.
Proof.
  destruct op; simpl; [done| |]; unfold py_le, py_ge;
    destruct x, y; simpl; congruence.
Qed.

(** A key of the mapping is never reported as unknown; any other key is. *)
Lemma check_key_known approach o filters key msg :
  key ∈ mapping_keys →
  check_key (mapping_of approach o) filters key ≠ inl (KeyError msg).
Proof.
  intros Hin. unfold check_key.
  destruct (get key (mapping_of approach o)) as [op|] eqn:Hop.
  - destruct (default VNone (get key filters)); [done|..];
      intros Hraise%apply_op_exn; done.
  - apply get_None in Hop. by rewrite mapping_of_keys in Hop.
Qed.

Lemma check_key_unknown approach o filters key :
  key ∉ mapping_keys →
  check_key (mapping_of approach o) filters key
  = inl (KeyError ("No option to search for " ++ key)%string).
Proof.
  intros Hout. unfold check_key.
  rewrite <- (mapping_of_keys approach o) in Hout.
  apply get_None in Hout. by rewrite Hout.
Qed.

Lemma check_keys_known approach o filters ks msg :
  Forall (.∈ mapping_keys) ks →
  raised (check_keys (mapping_of approach o) filters ks) ≠ Some (KeyError msg).
Proof.
  induction 1 as [|key ks Hkey _ IH]; simpl; [done|].
  destruct (check_key (mapping_of approach o) filters key) as [e|b] eqn:He;
    simpl; [|done].
  intros [= ->]. by apply check_key_known in He.
Qed.

(** A run that meets a key outside the mapping does not complete. *)
Lemma check_keys_unknown approach o filters ks key :
  key ∈ ks → key ∉ mapping_keys →
  raised (check_keys (mapping_of approach o) filters ks) ≠ None.
Proof.
  intros Hin Hout. induction ks as [|k ks IH]; [by apply elem_of_nil in Hin|].
  simpl. destruct (check_key (mapping_of approach o) filters k) as [e|b] eqn:He;
    simpl; [done|].
  apply elem_of_cons in Hin as [<-|Hin]; [|by apply IH].
  by rewrite check_key_unknown in He.
Qed.

(** The run over the first keys of a dict, as part of the whole run. *)
Lemma check_keys_app mapping filters ks ks' :
  check_keys mapping filters (ks ++ ks') =
  match raised (check_keys mapping filters ks) with
  | Some e => check_keys mapping filters ks
  | None =>
      mkTrace (yielded (check_keys mapping filters ks)
               ++ yielded (check_keys mapping filters ks'))
              (raised (check_keys mapping filters ks'))
  end.
Proof.
  induction ks as [|k ks IH]; simpl.
  - by destruct (check_keys mapping filters ks').
  - destruct (check_key mapping filters k); simpl; [done|].
    rewrite IH. by destruct (raised (check_keys mapping filters ks)).
Qed.

Lemma check_keys_ext mapping filters filters' ks :
  (∀ k, k ∈ ks → get k filters = get k filters') →
  check_keys mapping filters ks = check_keys mapping filters' ks.
Proof.
  induction ks as [|k ks IH]; intros Hext; [done|]. simpl.
  unfold check_key. rewrite (Hext k) by left.
  rewrite IH; [done|]. intros k' Hk'. apply Hext. by right.
Qed.
End CheckFilters.

(** The entry-by-entry evaluation of the dict literal gives the mapping of
    the linked object, or the [AttributeError] of the first attribute read. *)
Lemma eval_mapping_build (self : NEODatabase) (approach : CloseApproach) :
  eval_mapping self approach = build_mapping self approach.
Proof.
  unfold eval_mapping, build_mapping, mapping_entries, neo_attr.
  by destruct (neo_of self approach).
Qed.

Lemma exhaust_resume (mapping : dict (value * operator)) (filters : dict value)
    (ks : list string) (fuel : nat) :
  length ks < fuel →
  exhaust fuel (Suspended mapping filters ks) = check_keys mapping filters ks.
Proof.
  revert fuel. induction ks as [|key ks IH]; intros [|fuel] Hfuel;
    simpl in *; try lia; [done|].
  destruct (check_key mapping filters key); [done|].
  rewrite IH by lia. done.
Qed.

(** C10, counterexample: the approach "9999XYZ" has no [neo], and the
    filters hold the key ["distance_max"] alone.  The call of
    [_check_filters] raises nothing: it returns a generator that has not
    run.  The [AttributeError] comes when that generator is first advanced. *)
Lemma check_filters_call_counterexample :
  neo Samples.approach_9999XYZ = None ∧
  _check_filters_call Samples.linked_db Samples.approach_9999XYZ
    [("distance_max", VFloat float_one)]
  = inr (Created Samples.linked_db Samples.approach_9999XYZ
           [("distance_max", VFloat float_one)]) ∧
  next (Created Samples.linked_db Samples.approach_9999XYZ
          [("distance_max", VFloat float_one)])
  = Raises AttributeError.
Proof. by vm_compute. Qed.

(** C10, amended: a call of [_check_filters] only creates a generator.  The
    first advance of that generator evaluates the whole dict literal before
    it looks at any key of [filters]: all twelve entries, in source order,
    those that read [approach.neo.name], [approach.neo.diameter] and
    [approach.neo.hazardous] included.  For a linked approach the mapping so
    built holds the twelve attribute values with their operators, and the
    keys are then checked against it.  For an approach whose [neo] is [None]
    the eight entries that do not read the object are evaluated, the entry
    ["name"] raises [AttributeError], and so does the first advance, whatever
    the filters are: a filter on ["distance_max"] alone, or none at all.
    Advancing the generator to its end gives the run [_check_filters]. *)
Theorem check_filters_first_advance
    (self : NEODatabase) (approach : CloseApproach) (filters : dict value) :
  _check_filters_call self approach filters
  = inr (Created self approach filters) ∧
  length (mapping_entries self approach) = 12 ∧
  (mapping_entries self approach).*1.*1 = mapping_keys ∧
  next (Created self approach filters)
  = match eval_mapping self approach with
    | inl e => Raises e
    | inr mapping => resume mapping filters (keys filters)
    end ∧
  match neo_of self approach with
  | Some o =>
      eval_mapping self approach
      = inr [ ("des", (VStr (_designation approach), op_eq));
              ("date", (VDate (dt_date (time approach)), op_eq));
              ("start_date", (VDate (dt_date (time approach)), op_ge));
              ("end_date", (VDate (dt_date (time approach)), op_le));
              ("distance_min", (VFloat (distance approach), op_ge));
              ("distance_max", (VFloat (distance approach), op_le));
              ("velocity_max", (VFloat (velocity approach), op_le));
              ("velocity_min", (VFloat (velocity approach), op_ge));
              ("name", (from_option VStr VNone (name o), op_eq));
              ("diameter_min", (VFloat (diameter o), op_ge));
              ("diameter_max", (VFloat (diameter o), op_le));
              ("hazardous", (VBool (hazardous o), op_eq)) ]
  | None =>
      eval_mapping self approach = inl AttributeError ∧
      (∃ mapping,
         eval_entries (take 8 (mapping_entries self approach)) = inr mapping ∧
         length mapping = 8) ∧
      Forall (λ entry, entry.1.2 = inl AttributeError)
             (drop 8 (mapping_entries self approach))
  end ∧
  (neo approach = None →
   next (Created self approach filters) = Raises AttributeError ∧
   next (Created self approach []) = Raises AttributeError ∧
   ∀ v, next (Created self approach [("distance_max", v)])
        = Raises AttributeError) ∧
  (∀ fuel, length filters < fuel →
     exhaust fuel (Created self approach filters)
     = _check_filters self approach filters).
Proof.
  split_and!; [done..| | |].
  - unfold eval_mapping, mapping_entries, neo_attr.
    destruct (neo_of self approach) as [o|]; [done|].
    split_and!; [done|by eexists|]. simpl. by repeat constructor.
  - intros Hneo.
    assert (eval_mapping self approach = inl AttributeError) as Heval.
    { rewrite eval_mapping_build. unfold build_mapping, neo_of.
      by rewrite Hneo. }
    unfold next. by rewrite Heval.
  - intros [|fuel] Hfuel; [lia|]. unfold _check_filters.
    rewrite <- eval_mapping_build. simpl.
    destruct (eval_mapping self approach) as [e|mapping]; [done|].
    assert (length (keys filters) ≤ fuel) as Hk
      by (unfold keys; rewrite length_fmap; lia).
    destruct (keys filters) as [|key ks]; simpl in *; [done|].
    destruct (check_key mapping filters key); [done|].
    rewrite exhaust_resume by lia. done.
Qed.

(** The unlinked approach "9999XYZ", filtered on its distance alone. *)
Lemma check_filters_first_advance_witness :
  next (Created Samples.linked_db Samples.approach_9999XYZ
          [("distance_max", VFloat float_one)]) = Raises AttributeError ∧
  next (Created Samples.linked_db Samples.approach_9999XYZ [])
  = Raises AttributeError ∧
  ∀ v, next (Created Samples.linked_db Samples.approach_9999XYZ
               [("distance_max", v)]) = Raises AttributeError.
Proof.
  apply (proj1 (proj2 (proj2 (proj2 (proj2 (proj2
           (check_filters_first_advance Samples.linked_db
              Samples.approach_9999XYZ
              [("distance_max", VFloat float_one)]))))))).
  reflexivity.
Defined.

(** C9: for an approach linked to an object whose diameter is NaN, a
    ["diameter_min"] or ["diameter_max"] filter with a numeric threshold
    (finite or not) raises nothing and evaluates to false, alone or among
    other filters. *)
Theorem diameter_nan_filter
    (self : NEODatabase) (approach : CloseApproach) (o : NearEarthObject)
    (key : string) (v : value) (t : spec_float) :
  neo_of self approach = Some o →
  diameter o = S754_nan →
  key = "diameter_min" ∨ key = "diameter_max" →
  as_number v = Some t →
  _check_filters self approach [(key, v)] = yield false stop ∧
  ∀ filters, get key filters = Some v →
    check_key (mapping_of approach o) filters key = inr false.
Proof.
  intros Ho Hnan Hkey Hv.
  assert (∀ filters, get key filters = Some v →
            check_key (mapping_of approach o) filters key = inr false) as Hcheck.
  { intros filters Hget. unfold check_key. rewrite Hget.
    destruct Hkey as [-> | ->]; simpl; rewrite Hnan;
      destruct v; simpl in *; try done; by injection Hv as ->. }
  split; [|done].
  unfold _check_filters, build_mapping. rewrite Ho. simpl.
  rewrite Hcheck; [done|]. simpl. by rewrite decide_True.
Qed.

(** The object "2020AB" has an unknown diameter; the threshold is 0.5. *)
Lemma diameter_nan_filter_witness :
  _check_filters Samples.linked_db Samples.linked_approach
    [("diameter_min", VFloat Samples.float_half)] = yield false stop ∧
  ∀ filters, get "diameter_min" filters = Some (VFloat Samples.float_half) →
    check_key (mapping_of Samples.linked_approach Samples.unnamed_neo_linked)
      filters "diameter_min" = inr false.
Proof.
  apply (diameter_nan_filter Samples.linked_db Samples.linked_approach
           Samples.unnamed_neo_linked "diameter_min"
           (VFloat Samples.float_half) Samples.float_half).
  - by vm_compute.
  - reflexivity.
  - by left.
  - reflexivity.
Defined.

(** Equality with a string holds for that string alone. *)
Lemma py_eq_str (s : string) (v : value) :
  py_eq (VStr s) v = true ↔ v = VStr s.
Proof.
  unfold py_eq.
  destruct v as [|b|x|t|d]; simpl; try (split; [done | discriminate]).
  rewrite bool_decide_eq_true. split; congruence.
Qed.

(** C8, counterexample: the approach has designation "2020AB" and is linked,
    so the claim has a filter with key ["designation"] and threshold
    "2020AB" evaluate to true; the code rejects the key with [KeyError]. *)
Lemma designation_key_counterexample :
  neo_of Samples.linked_db Samples.linked_approach
  = Some Samples.unnamed_neo_linked ∧
  _designation Samples.linked_approach = "2020AB" ∧
  _check_filters Samples.linked_db Samples.linked_approach
    [("designation", VStr "2020AB")]
  = raise (KeyError "No option to search for designation").
Proof. by vm_compute. Qed.

(** C8, amended: the key the code recognizes for the designation criterion
    is ["des"].  For an approach linked to an object, a filter with key
    ["des"] and a threshold other than [None] evaluates to the exact
    equality of the approach's designation with the threshold; the key
    ["designation"] is rejected as unknown, with [KeyError]. *)
Theorem des_filter
    (self : NEODatabase) (approach : CloseApproach) (o : NearEarthObject)
    (v : value) :
  neo_of self approach = Some o →
  v ≠ VNone →
  _check_filters self approach [("des", v)]
  = yield (py_eq (VStr (_designation approach)) v) stop ∧
  (py_eq (VStr (_designation approach)) v = true
   ↔ v = VStr (_designation approach)) ∧
  _check_filters self approach [("designation", v)]
  = raise (KeyError "No option to search for designation").
Proof.
  intros Ho Hv. unfold _check_filters, build_mapping. rewrite Ho.
  split_and!; [|apply py_eq_str|done].
  simpl. unfold check_key. simpl. by destruct v.
Qed.

(** The linked approach of "2020AB", filtered on its own designation. *)
Lemma des_filter_witness :
  _check_filters Samples.linked_db Samples.linked_approach
    [("des", VStr "2020AB")]
  = yield (py_eq (VStr (_designation Samples.linked_approach)) (VStr "2020AB"))
          stop ∧
  (py_eq (VStr (_designation Samples.linked_approach)) (VStr "2020AB") = true
   ↔ VStr "2020AB" = VStr (_designation Samples.linked_approach)) ∧
  _check_filters Samples.linked_db Samples.linked_approach
    [("designation", VStr "2020AB")]
  = raise (KeyError "No option to search for designation").
Proof.
  apply (des_filter Samples.linked_db Samples.linked_approach
           Samples.unnamed_neo_linked (VStr "2020AB")).
  - by vm_compute.
  - discriminate.
Defined.

(** C7, counterexample: ["designation"] is a canonical key of the
    specification's table, yet a mapping with that key alone ends in
    [KeyError]; and ["bogus"] is a key of neither table, yet a mapping that
    holds it after a ["distance_min"] filter with a string threshold ends in
    [TypeError], raised by the comparison of a float with a string, and
    never signals the unknown key. *)
Lemma unknown_key_counterexample :
  ("designation" ∈ spec_canonical_keys ∧
   raised (_check_filters Samples.linked_db Samples.linked_approach
             [("designation", VNone)])
   = Some (KeyError "No option to search for designation")) ∧
  (("bogus" ∉ spec_canonical_keys) ∧ ("bogus" ∉ mapping_keys) ∧
   raised (_check_filters Samples.linked_db Samples.linked_approach
             [("distance_min", VStr "abc"); ("bogus", VNone)])
   = Some TypeError).
Proof.
  split_and!; [by_decision | by vm_compute | by_decision | by_decision
              | by vm_compute].
Qed.

(** C7, amended: take as the canonical keys the twelve keys of the code's
    mapping (["des"], not ["designation"]).  A filters mapping whose keys are
    all canonical never ends in [KeyError].  A mapping with a key outside
    the set never runs to completion, and it ends in
    [KeyError('No option to search for <key>')] for its first such key
    whenever the entries before that key are checked without raising (which
    includes that the approach is linked to an object). *)
Theorem unknown_key_signalled
    (self : NEODatabase) (approach : CloseApproach) (filters : dict value) :
  (Forall (.∈ mapping_keys) (keys filters) →
   ∀ msg, raised (_check_filters self approach filters) ≠ Some (KeyError msg)) ∧
  (∀ key, key ∈ keys filters → key ∉ mapping_keys →
     raised (_check_filters self approach filters) ≠ None) ∧
  (∀ pre key v post,
     filters = (pre ++ (key, v) :: post) →
     key ∉ mapping_keys →
     raised (_check_filters self approach pre) = None →
     _check_filters self approach filters =
     mkTrace (yielded (_check_filters self approach pre))
             (Some (KeyError ("No option to search for " ++ key)%string))).
Proof.
  unfold _check_filters, build_mapping.
  destruct (neo_of self approach) as [o|]; simpl; [|by split_and!].
  split_and!.
  - intros Hall msg. by apply check_keys_known.
  - intros key Hin Hout. by apply (check_keys_unknown _ _ _ _ key).
  - intros pre key v post -> Hout Hpre.
    assert (Forall (.∈ mapping_keys) (keys pre)) as Hknown.
    { apply Forall_forall. intros k Hk.
      destruct (decide (k ∈ mapping_keys)) as [|Hk']; [done|].
      by destruct (check_keys_unknown approach o pre (keys pre) k). }
    unfold keys. rewrite fmap_app. fold (keys pre). simpl.
    rewrite check_keys_app.
    rewrite (check_keys_ext _ (pre ++ (key, v) :: post) pre (keys pre))
      by (intros k Hk; by apply get_app_l).
    rewrite Hpre. simpl. rewrite check_key_unknown by done. simpl.
    by rewrite app_nil_r.
Qed.

(** Two known keys; then the unknown key "bogus" between them. *)
Lemma unknown_key_signalled_witness :
  (∀ msg,
     raised (_check_filters Samples.linked_db Samples.linked_approach
               [("distance_max", VFloat float_one); ("hazardous", VBool true)])
     ≠ Some (KeyError msg)) ∧
  raised (_check_filters Samples.linked_db Samples.linked_approach
            [("distance_max", VFloat float_one); ("bogus", VNone);
             ("hazardous", VBool true)]) ≠ None ∧
  _check_filters Samples.linked_db Samples.linked_approach
    [("distance_max", VFloat float_one); ("bogus", VNone);
     ("hazardous", VBool true)]
  = mkTrace [true] (Some (KeyError "No option to search for bogus")).
Proof.
  split_and!.
  - apply (proj1 (unknown_key_signalled Samples.linked_db
                    Samples.linked_approach
                    [("distance_max", VFloat float_one);
                     ("hazardous", VBool true)])).
    repeat constructor; by_decision.
  - apply (proj1 (proj2 (unknown_key_signalled Samples.linked_db
                    Samples.linked_approach
                    [("distance_max", VFloat float_one); ("bogus", VNone);
                     ("hazardous", VBool true)])) "bogus"); by_decision.
  - apply (proj2 (proj2 (unknown_key_signalled Samples.linked_db
                    Samples.linked_approach
                    [("distance_max", VFloat float_one); ("bogus", VNone);
                     ("hazardous", VBool true)]))
             [("distance_max", VFloat float_one)] "bogus" VNone
             [("hazardous", VBool true)]).
    + reflexivity.
    + by_decision.
    + by vm_compute.
Defined.

(** * Further properties of the code *)

(** ** The constructor: when it returns, and what it leaves alone *)

Section ConstructorMore.
Implicit Types (neos : list NearEarthObject) (cas todo : list CloseApproach)
  (o O : NearEarthObject) (a E : CloseApproach) (i j k p : ref)
  (self : NEODatabase) (pdes : gmap string ref).

Lemma link_Raised_inv todo j self e st :
  link j todo self = Raised e st →
  e = AttributeError ∧
  Exists (λ a, pdes_to_neo self !! _designation a = None) todo.
Proof.
  revert j self. induction todo as [|a todo IH]; intros j self; [done|].
  simpl. unfold link_one, get_neo_by_designation.
  destruct (pdes_to_neo self !! _designation a) as [i|] eqn:Hi.
  - intros [-> Hex]%IH. split; [done|]. by apply Exists_cons_tl.
  - intros [= <- <-]. split; [done|]. by apply Exists_cons_hd.
Qed.

Lemma visited_all pdes todo :
  Forall (λ a, is_Some (pdes !! _designation a)) todo →
  visited pdes todo = length todo.
Proof.
  induction 1 as [|a todo [r Hr] _ IH]; [done|]. simpl. by rewrite Hr, IH.
Qed.

Lemma appended_intro pdes i j todo k a :
  Forall (λ a, is_Some (pdes !! _designation a)) todo →
  todo !! k = Some a → pdes !! _designation a = Some i →
  j + k ∈ appended pdes i j todo.
Proof.
  intros Hall. revert j k.
  induction Hall as [|b todo [r Hr] _ IH]; intros j k Hk Hi; [done|].
  simpl. rewrite Hr. apply elem_of_app. destruct k as [|k]; simpl in Hk.
  - injection Hk as ->. left. rewrite Hr in Hi. injection Hi as ->.
    rewrite decide_True by done. rewrite Nat.add_0_r. by left.
  - right. replace (j + S k) with (S j + k) by lia. by apply IH.
Qed.

Lemma appended_NoDup pdes i j todo : NoDup (appended pdes i j todo).
Proof.
  revert j. induction todo as [|a todo IH]; intros j; simpl; [constructor|].
  destruct (pdes !! _designation a) as [i'|]; [|constructor].
  case_decide; simpl; [|apply IH].
  constructor; [|apply IH]. intros [Hle _]%appended_elem. lia.
Qed.

Lemma link_lengths todo j self :
  length (_neos (final_state (link j todo self))) = length (_neos self) ∧
  length (_approaches (final_state (link j todo self)))
  = length (_approaches self).
Proof.
  revert j self. induction todo as [|a todo IH]; intros j self; [done|].
  simpl. unfold link_one, get_neo_by_designation.
  destruct (pdes_to_neo self !! _designation a) as [i|]; simpl.
  - destruct (IH (S j) (mkDB (alter (append_approach j) i (_neos self))
      (alter (set_neo (Some i)) j (_approaches self)) (name_to_neo self)
      (pdes_to_neo self) (approach_to_des self))) as [Hn Ha].
    simpl in Hn, Ha. rewrite length_alter in Hn. by rewrite length_alter in Ha.
  - by rewrite length_alter.
Qed.

(** The designation index knows a designation exactly when some object
    carries it. *)
Lemma index_by_is_Some neos (d : string) :
  is_Some (index_by designation neos !! d) ↔
  ∃ o, o ∈ neos ∧ designation o = d.
Proof.
  split.
  - intros [r (o & Ho & Hd & _)%index_by_Some]. exists o.
    split; [by eapply list_elem_of_lookup_2|done].
  - intros (o & Ho & Hd).
    destruct (index_by designation neos !! d) as [r|] eqn:Hr; [by eexists|].
    by destruct (proj1 (index_by_None designation neos d) Hr o Ho).
Qed.
End ConstructorMore.

(** X1: [__init__] returns exactly when every approach's designation is the
    designation of some object (always, when there are no approaches); when
    it does not return, the exception is [AttributeError]. *)
Theorem init_returns_iff
    (neos : list NearEarthObject) (cas : list CloseApproach) :
  ((∃ db, __init__ neos cas = Returned db) ↔
   ∀ a, a ∈ cas → ∃ o, o ∈ neos ∧ designation o = _designation a) ∧
  (∀ e st, __init__ neos cas = Raised e st → e = AttributeError) ∧
  (∃ db, __init__ neos [] = Returned db).
Proof.
  rewrite !init_link. split_and!.
  - split.
    + intros [db Hall%link_Returned_inv] a Ha. simpl in Hall.
      apply index_by_is_Some. by apply (proj1 (Forall_forall _ _) Hall).
    + intros Hall. apply link_returns, Forall_forall. intros a Ha.
      simpl. apply index_by_is_Some. auto.
  - intros e st Hr. by apply link_Raised_inv in Hr as [-> _].
  - by eexists.
Qed.

(** X2: linking only assigns [neo] and appends to [approaches].  Whether
    [__init__] returns or raises, both collections keep their length, every
    object keeps its designation, name, diameter and hazard flag and its
    earlier list of approaches as a prefix of the new one, and every approach
    keeps its designation, time, distance and velocity. *)
Theorem init_preserves_fields
    (neos : list NearEarthObject) (cas : list CloseApproach) :
  let st := final_state (__init__ neos cas) in
  length (_neos st) = length neos ∧
  length (_approaches st) = length cas ∧
  (∀ i,
     (λ o, (designation o, name o, diameter o, hazardous o)) <$> _neos st !! i
     = (λ o, (designation o, name o, diameter o, hazardous o)) <$> neos !! i) ∧
  (∀ i o o', neos !! i = Some o → _neos st !! i = Some o' →
     approaches o `prefix_of` approaches o') ∧
  (∀ j,
     (λ a, (_designation a, time a, distance a, velocity a))
       <$> _approaches st !! j
     = (λ a, (_designation a, time a, distance a, velocity a)) <$> cas !! j).
Proof.
  intros st. subst st. split_and!.
  - rewrite init_link. apply link_lengths.
  - rewrite init_link. apply link_lengths.
  - intros i. rewrite init_neos. by destruct (neos !! i).
  - intros i o o' Ho Ho'. rewrite init_neos, Ho in Ho'.
    injection Ho' as <-. simpl. by apply prefix_app_r.
  - intros j. rewrite init_link, link_approaches, Nat.sub_0_r. simpl.
    destruct (cas !! j) as [a|] eqn:Ha; simpl; [|done]. by case_decide.
Qed.

(** ** The constructor: the linked structure *)

Section Linked.
Implicit Types (neos : list NearEarthObject) (cas todo : list CloseApproach)
  (o O : NearEarthObject) (a E : CloseApproach) (i j k p : ref)
  (self db : NEODatabase) (pdes : gmap string ref).

Lemma visited_le pdes todo : visited pdes todo ≤ length todo.
Proof.
  induction todo as [|a todo IH]; simpl; [done|].
  destruct (pdes !! _designation a); lia.
Qed.

(** The approaches after the loop, as a list: the visited ones relinked,
    the others as they were. *)
Lemma init_approaches neos cas :
  _approaches (final_state (__init__ neos cas)) =
  (linked_by (index_by designation neos)
     <$> take (visited (index_by designation neos) cas) cas)
  ++ drop (visited (index_by designation neos) cas) cas.
Proof.
  pose proof (visited_le (index_by designation neos) cas) as Hv.
  apply list_eq. intros j.
  rewrite init_link, link_approaches, Nat.sub_0_r. simpl.
  destruct (decide (j < visited (index_by designation neos) cas)) as [Hj|Hj].
  - rewrite lookup_app_l by (rewrite length_fmap, length_take; lia).
    rewrite list_lookup_fmap, lookup_take_lt by done.
    destruct (cas !! j) as [a|] eqn:Ha; [|done].
    by rewrite decide_True by lia.
  - rewrite lookup_app_r by (rewrite length_fmap, length_take; lia).
    rewrite length_fmap, length_take, lookup_drop.
    replace (visited (index_by designation neos) cas
             + (j - visited (index_by designation neos) cas `min` length cas))
      with j by lia.
    destruct (cas !! j) as [a|] eqn:Ha; [|done].
    by rewrite decide_False by lia.
Qed.

Lemma init_Returned_approaches neos cas db :
  __init__ neos cas = Returned db →
  _approaches db = linked_by (index_by designation neos) <$> cas.
Proof.
  intros Hinit. pose proof (init_approaches neos cas) as Happ.
  rewrite Hinit in Happ. simpl in Happ. rewrite Happ.
  rewrite init_link in Hinit. apply link_Returned_inv in Hinit.
  rewrite visited_all by done.
  by rewrite firstn_all, drop_all, app_nil_r.
Qed.

Lemma init_Returned_neo neos cas db i :
  __init__ neos cas = Returned db →
  _neos db !! i =
  extend (appended (index_by designation neos) i 0 cas) <$> neos !! i.
Proof. intros Hinit. rewrite <- init_neos. by rewrite Hinit. Qed.

Lemma init_Returned_matched neos cas db :
  __init__ neos cas = Returned db →
  Forall (λ a, is_Some (index_by designation neos !! _designation a)) cas.
Proof. rewrite init_link. apply link_Returned_inv. Qed.

(** Once the loop has met an approach the index does not know, nothing
    after it counts. *)
Lemma appended_stop pdes i j pre a post :
  Forall (λ a, is_Some (pdes !! _designation a)) pre →
  pdes !! _designation a = None →
  appended pdes i j (pre ++ a :: post) = appended pdes i j pre.
Proof.
  intros Hpre Ha. revert j.
  induction Hpre as [|b pre [r Hr] _ IH]; intros j; simpl.
  - by rewrite Ha.
  - by rewrite Hr, IH.
Qed.

Lemma visited_stop pdes pre a post :
  Forall (λ a, is_Some (pdes !! _designation a)) pre →
  pdes !! _designation a = None →
  visited pdes (pre ++ a :: post) = S (length pre).
Proof.
  intros Hpre Ha. induction Hpre as [|b pre [r Hr] _ IH]; simpl.
  - by rewrite Ha.
  - by rewrite Hr, IH.
Qed.
End Linked.

(** Every approach of a returned database is linked, both ways. *)
Lemma init_Returned_back_reference
    (neos : list NearEarthObject) (cas : list CloseApproach)
    (db : NEODatabase) (j : ref) (a' : CloseApproach) :
  __init__ neos cas = Returned db →
  _approaches db !! j = Some a' →
  ∃ i o', neo a' = Some i ∧ _neos db !! i = Some o' ∧
          designation o' = _designation a' ∧ j ∈ approaches o'.
Proof.
  intros Hinit Ha'.
  pose proof (init_Returned_matched _ _ _ Hinit) as Hall.
  rewrite (init_Returned_approaches _ _ _ Hinit), list_lookup_fmap in Ha'.
  destruct (cas !! j) as [a|] eqn:Ha; [|done]. injection Ha' as <-.
  destruct (proj1 (Forall_lookup _ _) Hall j a Ha) as [i Hi].
  pose proof Hi as (o & Ho & Hd & _)%index_by_Some.
  exists i, (extend (appended (index_by designation neos) i 0 cas) o).
  unfold linked_by. simpl. split_and!; [done| |done|].
  - by rewrite (init_Returned_neo _ _ _ _ Hinit), Ho.
  - apply elem_of_app. right. by apply (appended_intro _ _ 0 _ j a).
Qed.


(** X3: referential integrity.  In a database [__init__] returned, every
    approach has a [neo] that refers to an object of the database whose
    designation is the approach's, and that object's list of approaches
    contains the approach. *)
Theorem init_back_references
    (neos : list NearEarthObject) (cas : list CloseApproach)
    (db : NEODatabase) :
  __init__ neos cas = Returned db →
  ∀ j a', _approaches db !! j = Some a' →
    ∃ i o', neo a' = Some i ∧ _neos db !! i = Some o' ∧
            designation o' = _designation a' ∧ j ∈ approaches o'.
Proof.
  intros Hinit j a'. by apply (init_Returned_back_reference neos cas).
Qed.

(** Every object and approach of the scenario's database. *)
Lemma init_back_references_witness :
  ∃ i o', neo Samples.linked_approach = Some i ∧
          _neos Samples.linked_db !! i = Some o' ∧
          designation o' = _designation Samples.linked_approach ∧
          0 ∈ approaches o'.
Proof.
  apply (init_back_references [Samples.unnamed_neo] [Samples.approach_2020AB]
           Samples.linked_db).
  - by vm_compute.
  - by vm_compute.
Defined.

(** X4: on unlinked objects, in a database [__init__] returned, the two
    directions of the link agree: an object's list of approaches has no
    repetition, and it contains an approach exactly when that approach's
    [neo] is the object.  So every approach is in exactly one list, once. *)
Theorem init_bidirectional
    (neos : list NearEarthObject) (cas : list CloseApproach)
    (db : NEODatabase) :
  Forall (λ o, approaches o = []) neos →
  __init__ neos cas = Returned db →
  ∀ i o', _neos db !! i = Some o' →
    NoDup (approaches o') ∧
    ∀ j, j ∈ approaches o' ↔
         ∃ a', _approaches db !! j = Some a' ∧ neo a' = Some i.
Proof.
  intros Hneos Hinit i o' Ho'.
  pose proof (init_Returned_matched _ _ _ Hinit) as Hall.
  rewrite (init_Returned_neo _ _ _ _ Hinit) in Ho'.
  destruct (neos !! i) as [o|] eqn:Ho; [|done]. injection Ho' as <-.
  simpl. rewrite (Forall_lookup_1 _ _ _ _ Hneos Ho). simpl.
  split; [apply appended_NoDup|]. intros j.
  rewrite (init_Returned_approaches _ _ _ Hinit), list_lookup_fmap. split.
  - intros (_ & a & Ha & Hi)%appended_elem. rewrite Nat.sub_0_r in Ha.
    exists (linked_by (index_by designation neos) a).
    rewrite Ha. split; [done|]. unfold linked_by. simpl. done.
  - intros (a' & Ha' & Hi). destruct (cas !! j) as [a|] eqn:Ha; [|done].
    injection Ha' as <-. unfold linked_by in Hi. simpl in Hi.
    by apply (appended_intro _ _ 0 _ j a).
Qed.

Lemma init_bidirectional_witness :
  NoDup (approaches (append_approach 0 Samples.eros)) ∧
  ∀ j, j ∈ approaches (append_approach 0 Samples.eros) ↔
       ∃ a', _approaches Samples.eros_db !! j = Some a' ∧ neo a' = Some 1.
Proof.
  apply (init_bidirectional [Samples.unnamed_neo; Samples.eros]
           [Samples.approach_433; Samples.approach_2020AB] Samples.eros_db).
  - by repeat constructor.
  - by vm_compute.
  - by vm_compute.
Defined.

(** X5: an object that shares its designation with a later object of the
    input is shadowed.  Whether [__init__] returns or raises, no designation
    looks it up, linking leaves it exactly as it was (it receives no
    approach), and no approach the loop visits refers to it. *)
Theorem init_shadowed_object
    (neos : list NearEarthObject) (cas : list CloseApproach)
    (i p : ref) (O O2 : NearEarthObject) :
  neos !! i = Some O → neos !! p = Some O2 → i < p →
  designation O2 = designation O →
  let st := final_state (__init__ neos cas) in
  (∀ d, get_neo_by_designation st d ≠ Some i) ∧
  _neos st !! i = Some O ∧
  (∀ j a a', cas !! j = Some a → _approaches st !! j = Some a' →
     neo a' = Some i → neo a = Some i).
Proof.
  intros HO HO2 Hlt Hd st. subst st.
  assert (∀ d, index_by designation neos !! d ≠ Some i) as Hshadow.
  { intros d (o & Ho & Hod & Hlast)%index_by_Some.
    apply (Hlast p O2 Hlt HO2). congruence. }
  split_and!.
  - intros d. unfold get_neo_by_designation. rewrite init_link.
    destruct (link_indexes cas 0 (indexed neos cas)) as (_ & -> & _).
    apply Hshadow.
  - rewrite init_neos, HO. simpl. f_equal.
    assert (appended (index_by designation neos) i 0 cas = []) as ->.
    { destruct (appended _ i 0 cas) as [|x l] eqn:Hl; [done|].
      assert (x ∈ appended (index_by designation neos) i 0 cas) as Hx
        by (rewrite Hl; by left).
      apply appended_elem in Hx as (_ & a & _ & Ha). by destruct (Hshadow _ Ha). }
    apply extend_nil.
  - intros j a a' Ha Ha' Hi. rewrite init_approaches in Ha'.
    apply lookup_app_Some in Ha' as [Ha'|[Hge Ha']].
    + rewrite list_lookup_fmap in Ha'.
      destruct (take _ cas !! j) as [b|]; [|done]. injection Ha' as <-.
      unfold linked_by in Hi. simpl in Hi. by destruct (Hshadow _ Hi).
    + rewrite lookup_drop in Ha'.
      rewrite length_fmap, length_take in Ha', Hge.
      pose proof (visited_le (index_by designation neos) cas).
      pose proof (lookup_lt_Some _ _ _ Ha) as Hj.
      replace (visited (index_by designation neos) cas
               + (j - visited (index_by designation neos) cas `min` length cas))
        with j in Ha' by lia.
      congruence.
Qed.

(** Eros is followed by another object with designation "433". *)
Lemma init_shadowed_object_witness :
  let st := final_state
              (__init__ [Samples.eros; Samples.unnamed_433]
                        [Samples.approach_433]) in
  (∀ d, get_neo_by_designation st d ≠ Some 0) ∧
  _neos st !! 0 = Some Samples.eros ∧
  (∀ j a a', [Samples.approach_433] !! j = Some a →
     _approaches st !! j = Some a' → neo a' = Some 0 → neo a = Some 0).
Proof.
  apply (init_shadowed_object [Samples.eros; Samples.unnamed_433]
           [Samples.approach_433] 0 1 Samples.eros Samples.unnamed_433).
  - reflexivity.
  - reflexivity.
  - lia.
  - reflexivity.
Defined.

(** X6: a failed construction leaves the caller's objects partly linked.
    When the approach at position [k] is the first whose designation matches
    no object, [__init__] raises after linking the approaches before it: the
    objects are left exactly as a successful construction over those [k]
    approaches leaves them, those approaches likewise, the approach at [k]
    has its [neo] set to [None], and the approaches after it are untouched. *)
Theorem init_raise_partial
    (neos : list NearEarthObject) (cas : list CloseApproach)
    (k : ref) (ak : CloseApproach) :
  cas !! k = Some ak →
  (∀ o, o ∈ neos → designation o ≠ _designation ak) →
  (∀ j a, j < k → cas !! j = Some a →
     ∃ o, o ∈ neos ∧ designation o = _designation a) →
  ∃ st db,
    __init__ neos cas = Raised AttributeError st ∧
    __init__ neos (take k cas) = Returned db ∧
    _neos st = _neos db ∧
    _approaches st = _approaches db ++ set_neo None ak :: drop (S k) cas.
Proof.
  intros Hk Hun Hpre.
  set (pdes := index_by designation neos).
  assert (pdes !! _designation ak = None) as Hnone by (by apply index_by_None).
  assert (Forall (λ a, is_Some (pdes !! _designation a)) (take k cas)) as Hall.
  { apply Forall_lookup. intros j a [Ha Hj]%lookup_take_Some.
    apply index_by_is_Some. eauto. }
  destruct (link_raises cas 0 (indexed neos cas)) as [st Hst].
  { apply Exists_exists. exists ak. split; [by eapply list_elem_of_lookup_2|done]. }
  destruct (link_returns (take k cas) 0 (indexed neos (take k cas)) Hall)
    as [db Hdb].
  rewrite <- !init_link in Hst, Hdb. exists st, db. split_and!; [done..| |].
  - apply list_eq. intros i.
    pose proof (init_neos neos cas i) as H1. rewrite Hst in H1. simpl in H1.
    rewrite H1, (init_Returned_neo _ _ _ _ Hdb).
    rewrite <- (take_drop_middle cas k ak Hk) at 1.
    by rewrite appended_stop.
  - pose proof (init_approaches neos cas) as H1. rewrite Hst in H1.
    simpl in H1. rewrite H1, (init_Returned_approaches _ _ _ Hdb).
    fold pdes.
    assert (visited pdes cas = S k) as ->.
    { rewrite <- (take_drop_middle cas k ak Hk), visited_stop by done.
      rewrite length_take. apply lookup_lt_Some in Hk. lia. }
    rewrite (take_S_r _ _ _ Hk), fmap_app, <- app_assoc. simpl.
    unfold linked_by at 2. by rewrite Hnone.
Qed.

(** The unmatched approach "9999XYZ" between two approaches of "2020AB". *)
Lemma init_raise_partial_witness :
  ∃ st db,
    __init__ [Samples.unnamed_neo]
      [Samples.approach_2020AB; Samples.approach_9999XYZ;
       Samples.approach_2020AB] = Raised AttributeError st ∧
    __init__ [Samples.unnamed_neo]
      (take 1 [Samples.approach_2020AB; Samples.approach_9999XYZ;
               Samples.approach_2020AB]) = Returned db ∧
    _neos st = _neos db ∧
    _approaches st
    = _approaches db ++ set_neo None Samples.approach_9999XYZ
        :: drop 2 [Samples.approach_2020AB; Samples.approach_9999XYZ;
                   Samples.approach_2020AB].
Proof.
  apply (init_raise_partial [Samples.unnamed_neo]
           [Samples.approach_2020AB; Samples.approach_9999XYZ;
            Samples.approach_2020AB] 1 Samples.approach_9999XYZ).
  - reflexivity.
  - intros o ->%list_elem_of_singleton. by vm_compute.
  - intros [|j] a Hj Ha; [|lia]. injection Ha as <-.
    exists Samples.unnamed_neo. split; [by left|done].
Defined.

(** ** Lookups without any uniqueness assumption *)

(** X7: [get_neo_by_designation] on a database [__init__] returned finds
    nothing exactly when no object of the input carries the designation, and
    otherwise finds the last object of the input that carries it (so what it
    returns always has the designation asked for). *)
Theorem get_neo_by_designation_spec
    (neos : list NearEarthObject) (cas : list CloseApproach)
    (db : NEODatabase) (d : string) :
  __init__ neos cas = Returned db →
  (get_neo_by_designation db d = None ↔
   ∀ o, o ∈ neos → designation o ≠ d) ∧
  (∀ i, get_neo_by_designation db d = Some i ↔
        ∃ o, neos !! i = Some o ∧ designation o = d ∧
             ∀ p o', i < p → neos !! p = Some o' → designation o' ≠ d) ∧
  (∀ i, get_neo_by_designation db d = Some i →
        designation <$> _neos db !! i = Some d).
Proof.
  intros Hinit. destruct (init_indexes _ _ _ Hinit) as [_ Hp].
  unfold get_neo_by_designation. rewrite Hp. split_and!.
  - apply index_by_None.
  - intros i. apply index_by_Some.
  - intros i (o & Ho & Hd & _)%index_by_Some.
    by rewrite (init_Returned_neo _ _ _ _ Hinit), Ho; simpl; rewrite Hd.
Qed.

Lemma get_neo_by_designation_spec_witness :
  (get_neo_by_designation Samples.eros_db "9999XYZ" = None ↔
   ∀ o, o ∈ [Samples.unnamed_neo; Samples.eros] → designation o ≠ "9999XYZ") ∧
  (∀ i, get_neo_by_designation Samples.eros_db "9999XYZ" = Some i ↔
        ∃ o, [Samples.unnamed_neo; Samples.eros] !! i = Some o ∧
             designation o = "9999XYZ" ∧
             ∀ p o', i < p → [Samples.unnamed_neo; Samples.eros] !! p = Some o' →
                     designation o' ≠ "9999XYZ") ∧
  (∀ i, get_neo_by_designation Samples.eros_db "9999XYZ" = Some i →
        designation <$> _neos Samples.eros_db !! i = Some "9999XYZ").
Proof.
  apply (get_neo_by_designation_spec [Samples.unnamed_neo; Samples.eros]
           [Samples.approach_433; Samples.approach_2020AB] Samples.eros_db).
  by vm_compute.
Defined.

(** X8: [get_neo_by_name] on a database [__init__] returned, for any key,
    [None] and the empty string included: it finds nothing exactly when no
    object of the input has that name, and otherwise finds the last object
    of the input that has it. *)
Theorem get_neo_by_name_spec
    (neos : list NearEarthObject) (cas : list CloseApproach)
    (db : NEODatabase) (n : option string) :
  __init__ neos cas = Returned db →
  (get_neo_by_name db n = None ↔ ∀ o, o ∈ neos → name o ≠ n) ∧
  (∀ i, get_neo_by_name db n = Some i ↔
        ∃ o, neos !! i = Some o ∧ name o = n ∧
             ∀ p o', i < p → neos !! p = Some o' → name o' ≠ n) ∧
  (∀ i, get_neo_by_name db n = Some i → name <$> _neos db !! i = Some n).
Proof.
  intros Hinit. destruct (init_indexes _ _ _ Hinit) as [Hn _].
  unfold get_neo_by_name. rewrite Hn. split_and!.
  - apply index_by_None.
  - intros i. apply index_by_Some.
  - intros i (o & Ho & Hd & _)%index_by_Some.
    by rewrite (init_Returned_neo _ _ _ _ Hinit), Ho; simpl; rewrite Hd.
Qed.

Lemma get_neo_by_name_spec_witness :
  (get_neo_by_name Samples.eros_db (Some "Eros") = None ↔
   ∀ o, o ∈ [Samples.unnamed_neo; Samples.eros] → name o ≠ Some "Eros") ∧
  (∀ i, get_neo_by_name Samples.eros_db (Some "Eros") = Some i ↔
        ∃ o, [Samples.unnamed_neo; Samples.eros] !! i = Some o ∧
             name o = Some "Eros" ∧
             ∀ p o', i < p → [Samples.unnamed_neo; Samples.eros] !! p = Some o' →
                     name o' ≠ Some "Eros") ∧
  (∀ i, get_neo_by_name Samples.eros_db (Some "Eros") = Some i →
        name <$> _neos Samples.eros_db !! i = Some (Some "Eros")).
Proof.
  apply (get_neo_by_name_spec [Samples.unnamed_neo; Samples.eros]
           [Samples.approach_433; Samples.approach_2020AB] Samples.eros_db).
  by vm_compute.
Defined.

(** ** The index from approaches to designations *)

(** A dict comprehension keyed by the elements' own references has one
    entry per element. *)
Lemma dict_comp_by_ref {A V} (f : A → V) (i : ref) (xs : list A)
    (d : gmap ref V) (k : ref) :
  dict_comp (λ j x, (j, f x)) i xs d !! k =
  if decide (i ≤ k < i + length xs) then f <$> xs !! (k - i) else d !! k.
Proof.
  revert i d. induction xs as [|x xs IH]; intros i d; simpl.
  - by rewrite decide_False by lia.
  - rewrite IH. destruct (decide (k = i)) as [->|Hne].
    + rewrite decide_False, decide_True by lia.
      by rewrite lookup_insert_eq, Nat.sub_diag.
    + destruct (decide (S i ≤ k < S i + length xs)) as [Hk|Hk].
      * rewrite decide_True by lia.
        by replace (k - i) with (S (k - S i)) by lia.
      * rewrite decide_False by lia. by rewrite lookup_insert_ne.
Qed.

(** X9: [approach_to_des] has exactly one entry per approach, holding that
    approach's designation, whether [__init__] returns or raises; and in a
    database [__init__] returned, looking that designation up gives the
    approach's [neo]. *)
Theorem approach_to_des_spec
    (neos : list NearEarthObject) (cas : list CloseApproach) (j : ref) :
  approach_to_des (final_state (__init__ neos cas)) !! j
  = _designation <$> cas !! j ∧
  ∀ db d, __init__ neos cas = Returned db →
    approach_to_des db !! j = Some d →
    ∃ a', _approaches db !! j = Some a' ∧ _designation a' = d ∧
          neo a' = get_neo_by_designation db d.
Proof.
  assert (approach_to_des (final_state (__init__ neos cas)) !! j
          = _designation <$> cas !! j) as Hdes.
  { rewrite init_link.
    destruct (link_indexes cas 0 (indexed neos cas)) as (_ & _ & ->).
    simpl. rewrite dict_comp_by_ref, Nat.sub_0_r.
    case_decide as Hj; [done|].
    symmetry. rewrite lookup_ge_None_2; [done|lia]. }
  split; [done|]. intros db d Hinit Hd.
  rewrite Hinit in Hdes. simpl in Hdes. rewrite Hdes in Hd.
  destruct (cas !! j) as [a|] eqn:Ha; [|done]. injection Hd as <-.
  exists (linked_by (index_by designation neos) a).
  rewrite (init_Returned_approaches _ _ _ Hinit), list_lookup_fmap, Ha.
  split_and!; [done..|].
  destruct (init_indexes _ _ _ Hinit) as [_ Hp].
  unfold get_neo_by_designation. by rewrite Hp.
Qed.

(** ** Queries: how filters compose *)

Lemma all_filters_app (fs1 fs2 : list predicate) (E : CloseApproach) :
  all_filters (fs1 ++ fs2) E = all_filters fs1 E && all_filters fs2 E.
Proof. unfold all_filters. apply forallb_app. Qed.

(** X10: querying with two collections of filters at once is querying with
    the first and then keeping what the second accepts; so adding filters
    never adds results, and never reorders them. *)
Theorem query_app (self : NEODatabase) (fs1 fs2 : list predicate) :
  query self (fs1 ++ fs2)
  = filter (λ E, all_filters fs2 E = true) (query self fs1) ∧
  sublist (query self (fs1 ++ fs2)) (query self fs1) ∧
  length (query self (fs1 ++ fs2)) ≤ length (query self fs1).
Proof.
  assert (query self (fs1 ++ fs2)
          = filter (λ E, all_filters fs2 E = true) (query self fs1)) as Heq.
  { rewrite !query_filter, list_filter_filter. apply list_filter_iff.
    intros E. rewrite all_filters_app, andb_true_iff. tauto. }
  split_and!; [done|..]; rewrite Heq.
  - apply sublist_filter.
  - apply length_filter.
Qed.

(** X11: the order of the filters, and repeating a filter, do not matter:
    two collections with the same predicates give the same query result. *)
Theorem query_same_filters (self : NEODatabase) (fs fs' : list predicate) :
  (∀ P, P ∈ fs ↔ P ∈ fs') →
  query self fs = query self fs'.
Proof.
  intros Hsame. rewrite !query_filter. apply list_filter_iff. intros E.
  unfold all_filters. rewrite !forallb_forall.
  setoid_rewrite <- list_elem_of_In. by setoid_rewrite Hsame.
Qed.

(** Two collections of the same two filters, in different orders and with a
    repetition. *)
Lemma query_same_filters_witness :
  query Samples.linked_db
    [(λ a, bool_decide (_designation a = "2020AB")); (λ a, true)]
  = query Samples.linked_db
      [(λ a, true); (λ a, bool_decide (_designation a = "2020AB"));
       (λ a, true)].
Proof.
  apply (query_same_filters Samples.linked_db
           [(λ a, bool_decide (_designation a = "2020AB")); (λ a, true)]
           [(λ a, true); (λ a, bool_decide (_designation a = "2020AB"));
            (λ a, true)]).
  intros P. rewrite !elem_of_cons, !elem_of_nil. tauto.
Defined.

(** X12: in a database [__init__] returned, every approach that [query]
    yields is linked to an object with the approach's designation; so
    [_check_filters] on a yielded approach builds its mapping, and never
    ends in [AttributeError]. *)
Theorem query_yields_linked
    (neos : list NearEarthObject) (cas : list CloseApproach)
    (db : NEODatabase) (filters : list predicate) (E : CloseApproach) :
  __init__ neos cas = Returned db →
  E ∈ query db filters →
  (∃ o, neo_of db E = Some o ∧ designation o = _designation E) ∧
  ∀ fs, raised (_check_filters db E fs) ≠ Some AttributeError.
Proof.
  intros Hinit HE.
  assert (E ∈ _approaches db) as [j Hj]%list_elem_of_lookup.
  { rewrite query_filter in HE. by apply list_elem_of_filter in HE as [_ ?]. }
  destruct (init_Returned_back_reference _ _ _ _ _ Hinit Hj)
    as (i & o & Hi & Ho & Hd & _).
  assert (neo_of db E = Some o) as Hneo.
  { unfold neo_of. rewrite Hi. simpl. done. }
  split; [by exists o|]. intros fs.
  unfold _check_filters, build_mapping. rewrite Hneo.
  generalize (keys fs). intros ks. induction ks as [|key ks IH]; [done|].
  simpl. destruct (check_key (mapping_of E o) fs key) as [e|b] eqn:He;
    simpl; [|done].
  intros [= ->]. unfold check_key in He.
  destruct (get key (mapping_of E o)) as [op|]; [|done].
  destruct (default VNone (get key fs)); [done|..];
    by apply apply_op_exn in He.
Qed.

Lemma query_yields_linked_witness :
  (∃ o, neo_of Samples.linked_db Samples.linked_approach = Some o ∧
        designation o = _designation Samples.linked_approach) ∧
  ∀ fs, raised (_check_filters Samples.linked_db Samples.linked_approach fs)
        ≠ Some AttributeError.
Proof.
  apply (query_yields_linked [Samples.unnamed_neo] [Samples.approach_2020AB]
           Samples.linked_db [] Samples.linked_approach).
  - by vm_compute.
  - by left.
Defined.

(** ** Filter checking: the shape of a run *)

Section Runs.
Implicit Types (self : NEODatabase) (approach : CloseApproach)
  (o : NearEarthObject) (filters pre post : dict value) (key : string)
  (v : value) (mapping : dict (value * operator)) (ks : list string).

Lemma check_keys_length mapping filters ks :
  length (yielded (check_keys mapping filters ks)) ≤ length ks ∧
  (raised (check_keys mapping filters ks) = None ↔
   length (yielded (check_keys mapping filters ks)) = length ks).
Proof.
  induction ks as [|key ks [IHle IHiff]]; simpl; [done|].
  destruct (check_key mapping filters key); simpl.
  - split; [lia|]. split; [done|lia].
  - split; [lia|]. rewrite IHiff. split; lia.
Qed.

Lemma get_all_None filters key :
  Forall (λ kv, kv.2 = VNone) filters → default VNone (get key filters) = VNone.
Proof.
  induction 1 as [|[k v] filters Hv _ IH]; simpl; [done|].
  case_decide; [done|]. apply IH.
Qed.

Lemma keys_length {V} (d : dict V) : length (keys d) = length d.
Proof. unfold keys. apply length_fmap. Qed.
End Runs.

(** X13: a run of [_check_filters] yields one boolean per key, in key
    order, until it ends: it never yields more values than there are keys,
    and it ends without an exception exactly when the approach is linked and
    every key got its boolean. *)
Theorem check_filters_yield_count
    (self : NEODatabase) (approach : CloseApproach) (filters : dict value) :
  length (yielded (_check_filters self approach filters)) ≤ length filters ∧
  (raised (_check_filters self approach filters) = None ↔
   is_Some (neo_of self approach) ∧
   length (yielded (_check_filters self approach filters)) = length filters).
Proof.
  unfold _check_filters, build_mapping.
  destruct (neo_of self approach) as [o|]; simpl.
  - destruct (check_keys_length (mapping_of approach o) filters (keys filters))
      as [Hle Hiff].
    rewrite keys_length in Hle, Hiff. split; [done|].
    rewrite Hiff. split; [by split|by intros [_ ?]].
  - split; [lia|]. split; [done|]. intros [Hs _]. by apply is_Some_None in Hs.
Qed.

(** X14: a threshold that is [None] is vacuously satisfied.  For a linked
    approach, a filters mapping with known keys whose thresholds are all
    [None] yields [True] for every key and raises nothing, whatever the
    approach and its object are. *)
Theorem check_filters_none_thresholds
    (self : NEODatabase) (approach : CloseApproach) (o : NearEarthObject)
    (filters : dict value) :
  neo_of self approach = Some o →
  Forall (λ kv, kv.1 ∈ mapping_keys ∧ kv.2 = VNone) filters →
  _check_filters self approach filters
  = mkTrace (replicate (length filters) true) None.
Proof.
  intros Ho Hall. unfold _check_filters, build_mapping. rewrite Ho.
  assert (Forall (λ kv, kv.2 = VNone) filters) as Hnone
    by (eapply Forall_impl; [exact Hall|intros kv Hkv; apply Hkv]).
  assert (Forall (.∈ mapping_keys) (keys filters)) as Hkeys.
  { unfold keys. apply Forall_fmap. eapply Forall_impl; [exact Hall|].
    intros kv Hkv. apply Hkv. }
  rewrite <- (keys_length filters). clear Hall.
  induction Hkeys as [|key ks Hkey _ IH]; [done|]. simpl.
  unfold check_key at 1.
  destruct (get key (mapping_of approach o)) as [op|] eqn:Hop.
  - rewrite get_all_None by done. by rewrite IH.
  - apply get_None in Hop. by rewrite mapping_of_keys in Hop.
Qed.

Lemma check_filters_none_thresholds_witness :
  _check_filters Samples.linked_db Samples.linked_approach
    [("name", VNone); ("diameter_min", VNone); ("date", VNone)]
  = mkTrace (replicate 3 true) None.
Proof.
  apply (check_filters_none_thresholds Samples.linked_db
           Samples.linked_approach Samples.unnamed_neo_linked
           [("name", VNone); ("diameter_min", VNone); ("date", VNone)]).
  - by vm_compute.
  - repeat constructor; by_decision.
Defined.

(** X15: a consumer that stops early sees the same values.  The values a
    run yields for the first entries of a filters mapping are a prefix of
    what it yields for the whole mapping, and an exception met among the
    first entries ends the whole run in the same way. *)
Theorem check_filters_prefix
    (self : NEODatabase) (approach : CloseApproach) (pre post : dict value) :
  yielded (_check_filters self approach pre)
    `prefix_of` yielded (_check_filters self approach (pre ++ post)) ∧
  (∀ e, raised (_check_filters self approach pre) = Some e →
        _check_filters self approach (pre ++ post)
        = _check_filters self approach pre).
Proof.
  unfold _check_filters, build_mapping.
  destruct (neo_of self approach) as [o|]; simpl; [|done].
  unfold keys. rewrite fmap_app. fold (keys pre) (keys post).
  rewrite check_keys_app.
  rewrite (check_keys_ext _ (pre ++ post) pre (keys pre))
    by (intros k Hk; by apply get_app_l).
  destruct (raised (check_keys (mapping_of approach o) pre (keys pre)))
    as [e|] eqn:Hr; simpl.
  - split; [done|]. intros e' _.
    by destruct (check_keys (mapping_of approach o) pre (keys pre)).
  - split; [by apply prefix_app_r|done].
Qed.

(** ** Filter checking: thresholds of the wrong type, and bounds *)

(** X16: which thresholds make a check raise, for thresholds that are
    [None], a boolean, a float, a string or a [datetime.date] (the values of
    type [value]; an integer, a complex number or a [datetime.datetime] is
    outside this statement).  On the mapping of a linked approach, the
    equality keys never raise for any such threshold (a threshold of another
    type compares unequal); a float bound raises exactly when its threshold
    is a string or a date, a date bound exactly when its threshold is a
    boolean, a float or a string; what is raised is [TypeError]. *)
Theorem check_key_raises_iff
    (approach : CloseApproach) (o : NearEarthObject) (filters : dict value)
    (key : string) :
  let v := default VNone (get key filters) in
  let r := check_key (mapping_of approach o) filters key in
  (key ∈ ["des"; "date"; "name"; "hazardous"] → ∃ b, r = inr b) ∧
  (key ∈ ["distance_min"; "distance_max"; "velocity_min"; "velocity_max";
          "diameter_min"; "diameter_max"] →
   (r = inl TypeError ↔ (∃ s, v = VStr s) ∨ (∃ d, v = VDate d)) ∧
   (∀ e, r = inl e → e = TypeError)) ∧
  (key ∈ ["start_date"; "end_date"] →
   (r = inl TypeError ↔
    (∃ b, v = VBool b) ∨ (∃ x, v = VFloat x) ∨ (∃ s, v = VStr s)) ∧
   (∀ e, r = inl e → e = TypeError)).
Proof.
  intros v r. subst v r. split_and!; intros Hkey;
    repeat (apply elem_of_cons in Hkey as [->|Hkey]);
    try (by apply elem_of_nil in Hkey);
    unfold check_key; simpl;
    destruct (default VNone (get _ filters)) as [|b|x|s|d];
    unfold apply_op, py_le, py_ge; simpl;
    try (by eexists);
    (split;
     [ split;
       [ intros H; first [discriminate H | eauto 6]
       | intros Hv; first
           [ reflexivity
           | repeat match goal with
                    | H : _ ∨ _ |- _ => destruct H
                    | H : ∃ _, _ |- _ => destruct H
                    end; discriminate ] ]
     | intros e H; first [discriminate H | by injection H as <-] ]).
Qed.

Lemma SFgeb_leb_eqb (x t : spec_float) : SFgeb x t && SFleb x t = SFeqb x t.
Proof.
  unfold SFgeb, SFleb, SFeqb. by destruct (SFcompare x t) as [[]|].
Qed.

(** X17: a lower and an upper bound with the same threshold pin the value.
    For a linked approach and each of distance, velocity and diameter, the
    [_min] and [_max] filters with one float threshold yield the two
    inclusive comparisons, and both are true exactly when the attribute
    equals the threshold (never, for a NaN). *)
Theorem bounds_pin_value
    (self : NEODatabase) (approach : CloseApproach) (o : NearEarthObject)
    (kmin kmax : string) (x t : spec_float) :
  neo_of self approach = Some o →
  (kmin, kmax, x) ∈ [ ("distance_min", "distance_max", distance approach);
                      ("velocity_min", "velocity_max", velocity approach);
                      ("diameter_min", "diameter_max", diameter o) ] →
  _check_filters self approach [(kmin, VFloat t); (kmax, VFloat t)]
  = mkTrace [SFgeb x t; SFleb x t] None ∧
  SFgeb x t && SFleb x t = SFeqb x t ∧
  (x = S754_nan → SFgeb x t = false ∧ SFleb x t = false).
Proof.
  intros Ho Hk. unfold _check_filters, build_mapping. rewrite Ho.
  split_and!; [|apply SFgeb_leb_eqb|by intros ->].
  repeat (apply elem_of_cons in Hk as [[= -> -> ->]|Hk]);
    [done..|by apply elem_of_nil in Hk].
Qed.

Lemma bounds_pin_value_witness :
  _check_filters Samples.linked_db Samples.linked_approach
    [("distance_min", VFloat Samples.float_half);
     ("distance_max", VFloat Samples.float_half)]
  = mkTrace [SFgeb (distance Samples.linked_approach) Samples.float_half;
             SFleb (distance Samples.linked_approach) Samples.float_half]
            None ∧
  SFgeb (distance Samples.linked_approach) Samples.float_half
    && SFleb (distance Samples.linked_approach) Samples.float_half
  = SFeqb (distance Samples.linked_approach) Samples.float_half ∧
  (distance Samples.linked_approach = S754_nan →
   SFgeb (distance Samples.linked_approach) Samples.float_half = false ∧
   SFleb (distance Samples.linked_approach) Samples.float_half = false).
Proof.
  apply (bounds_pin_value Samples.linked_db Samples.linked_approach
           Samples.unnamed_neo_linked "distance_min" "distance_max"
           (distance Samples.linked_approach) Samples.float_half).
  - by vm_compute.
  - by left.
Defined.

(** X18: the [name] filter cannot select an unnamed object.  For an
    approach linked to an object whose name is [None], a ["name"] filter is
    true for the threshold [None] alone (which is true for every approach)
    and false for every other threshold; it never raises. *)
Theorem name_filter_unnamed
    (self : NEODatabase) (approach : CloseApproach) (o : NearEarthObject)
    (v : value) :
  neo_of self approach = Some o →
  name o = None →
  _check_filters self approach [("name", v)]
  = yield (match v with VNone => true | _ => false end) stop.
Proof.
  intros Ho Hname. unfold _check_filters, build_mapping. rewrite Ho.
  simpl. unfold check_key. simpl. rewrite Hname. by destruct v.
Qed.

Lemma name_filter_unnamed_witness :
  _check_filters Samples.linked_db Samples.linked_approach
    [("name", VStr "Eros")]
  = yield false stop.
Proof.
  apply (name_filter_unnamed Samples.linked_db Samples.linked_approach
           Samples.unnamed_neo_linked (VStr "Eros")).
  - by vm_compute.
  - reflexivity.
Defined.

(** ** The loaders *)

Section LoaderLoops.
Import Extract.
Context {A B : Type} (body : A → load_exn + B).
Implicit Types (xs : list A) (ys : list B).

(** A loop returns exactly when its body returns for every element, with
    the results in the order of the elements. *)
Lemma for_each_inr xs ys :
  for_each body xs = inr ys ↔ Forall2 (λ x y, body x = inr y) xs ys.
Proof.
  revert ys. induction xs as [|x xs IH]; intros ys; simpl.
  - split; [intros [= <-]; constructor | by intros ->%Forall2_nil_inv_l].
  - destruct (body x) as [e|y] eqn:Hx.
    + split; [done|]. intros (y & ys' & Hy & _ & _)%Forall2_cons_inv_l.
      congruence.
    + destruct (for_each body xs) as [e|ys'] eqn:Hxs.
      * split; [done|].
        intros (y' & ys' & _ & Hys' & _)%Forall2_cons_inv_l.
        by apply IH in Hys'.
      * split.
        -- intros [= <-]. constructor; [done|]. by apply IH.
        -- intros (y' & ys'' & Hy' & Hys'' & ->)%Forall2_cons_inv_l.
           apply IH in Hys''. congruence.
Qed.

(** A loop raises what its body raises for the first element it fails on. *)
Lemma for_each_inl xs e :
  for_each body xs = inl e ↔
  ∃ k x, xs !! k = Some x ∧ body x = inl e ∧
         ∀ j x', j < k → xs !! j = Some x' → ∃ y, body x' = inr y.
Proof.
  induction xs as [|x xs IH]; simpl.
  - split; [done|]. by intros (k & x & Hk & _).
  - destruct (body x) as [e'|y] eqn:Hx.
    + split.
      * intros [= ->]. exists 0, x. split_and!; [done..|]. intros; lia.
      * intros ([|k] & x' & Hk & He & Hpre).
        -- injection Hk as <-. congruence.
        -- destruct (Hpre 0 x) as [y Hy]; [lia|done|congruence].
    + destruct (for_each body xs) as [e'|ys] eqn:Hxs.
      * split.
        -- intros [= ->]. destruct (proj1 IH eq_refl) as (k & x' & Hk & He & Hpre).
           exists (S k), x'. split_and!; [done..|].
           intros [|j] x'' Hj Hx''; [injection Hx'' as <-; by eexists|].
           apply (Hpre j); [lia|done].
        -- intros ([|k] & x' & Hk & He & Hpre).
           ++ injection Hk as <-. congruence.
           ++ f_equal. assert (inl e' = inl e :> load_exn + list B) as [= ->];
                [|done].
              apply IH. exists k, x'. split_and!; [done..|].
              intros j x'' Hj Hx''. apply (Hpre (S j)); [lia|done].
      * split; [done|]. intros ([|k] & x' & Hk & He & Hpre).
        -- injection Hk as <-. congruence.
        -- assert (inr ys = inl e :> load_exn + list B) as Hcontra; [|done].
           apply IH. exists k, x'. split_and!; [done..|].
           intros j x'' Hj Hx''. apply (Hpre (S j)); [lia|done].
Qed.
End LoaderLoops.

Section LoadNeos.
Import Extract.
Variable float_of_str : string → option spec_float.
Implicit Types (row : dict string) (reader : list (dict string))
  (o : NearEarthObject) (neos : list NearEarthObject).

(** What a row must hold for the loop body to return, and what it returns. *)
Lemma neo_of_row_inr row o :
  neo_of_row float_of_str row = inr o ↔
  ∃ d pha nm pdes diam,
    get "diameter" row = Some d ∧ get "pha" row = Some pha ∧
    get "name" row = Some nm ∧ get "pdes" row = Some pdes ∧
    (if decide (d = "") then Some S754_nan else float_of_str d) = Some diam ∧
    o = new_neo pdes (if decide (nm = "") then None else Some nm) diam
          (bool_decide (pha = "Y")).
Proof.
  unfold neo_of_row, column. split.
  - destruct (get "diameter" row) as [d|]; [|done].
    destruct (if decide (d = "") then Some S754_nan else float_of_str d)
      as [diam|] eqn:Hdiam; [|done].
    destruct (get "pha" row) as [pha|]; [|done].
    destruct (get "name" row) as [nm|]; [|done].
    destruct (get "pdes" row) as [pdes|]; [|done].
    intros [= <-]. by exists d, pha, nm, pdes, diam.
  - intros (d & pha & nm & pdes & diam & -> & -> & -> & -> & Hdiam & ->).
    by rewrite Hdiam.
Qed.

Lemma neo_of_row_exn row e :
  neo_of_row float_of_str row = inl e →
  e = ValueError ∨
  ∃ c, c ∈ ["diameter"; "pha"; "name"; "pdes"] ∧ e = RowKeyError c ∧
       get c row = None.
Proof.
  unfold neo_of_row, column.
  destruct (get "diameter" row) as [d|] eqn:H1.
  2:{ intros [= <-]. right. exists "diameter". split_and!; [by_decision|done..]. }
  destruct (if decide (d = "") then Some S754_nan else float_of_str d);
    [|intros [= <-]; by left].
  destruct (get "pha" row) as [pha|] eqn:H2.
  2:{ intros [= <-]. right. exists "pha". split_and!; [by_decision|done..]. }
  destruct (get "name" row) as [nm|] eqn:H3.
  2:{ intros [= <-]. right. exists "name". split_and!; [by_decision|done..]. }
  destruct (get "pdes" row) as [pdes|] eqn:H4; [done|].
  intros [= <-]. right. exists "pdes". split_and!; [by_decision|done..].
Qed.
End LoadNeos.

(** X19: [load_neos] builds one object per row, in row order.  Each object
    is unlinked, has the row's [pdes] as its designation, and is hazardous
    exactly when the row's [pha] is the string "Y" (any other string, "y"
    included, gives a non-hazardous object). *)
Theorem load_neos_rows
    (float_of_str : string → option spec_float)
    (reader : list (dict string)) (neos : list NearEarthObject) :
  Extract.load_neos float_of_str reader = inr neos →
  length neos = length reader ∧
  ∀ i row, reader !! i = Some row →
    ∃ o, neos !! i = Some o ∧
         get "pdes" row = Some (designation o) ∧
         (hazardous o = true ↔ get "pha" row = Some "Y") ∧
         approaches o = [].
Proof.
  intros Hload%for_each_inr. split; [symmetry; by eapply Forall2_length|].
  intros i row Hrow.
  destruct (Forall2_lookup_l _ _ _ _ _ Hload Hrow) as (o & Ho & Hbody).
  apply neo_of_row_inr in Hbody
    as (d & pha & nm & pdes & diam & _ & Hpha & _ & Hpdes & _ & ->).
  exists (new_neo pdes (if decide (nm = "") then None else Some nm) diam
            (bool_decide (pha = "Y"))).
  split_and!; [done..| |done]. simpl.
  rewrite bool_decide_eq_true, Hpha. split; congruence.
Qed.

Lemma load_neos_rows_witness :
  length [Samples.unnamed_neo; new_neo "433" (Some "Eros") Samples.float_ten true]
  = length LoaderSamples.csv_rows ∧
  ∀ i row, LoaderSamples.csv_rows !! i = Some row →
    ∃ o, [Samples.unnamed_neo;
          new_neo "433" (Some "Eros") Samples.float_ten true] !! i = Some o ∧
         get "pdes" row = Some (designation o) ∧
         (hazardous o = true ↔ get "pha" row = Some "Y") ∧
         approaches o = [].
Proof.
  apply (load_neos_rows LoaderSamples.toy_float LoaderSamples.csv_rows).
  by vm_compute.
Defined.

(** X20: the optional fields.  An object [load_neos] builds never has the
    empty string as its name: its name is [None] exactly when the row's name
    is empty, and the row's name otherwise.  Its diameter is NaN when the
    row's diameter is empty, and what [float] makes of the cell otherwise. *)
Theorem load_neos_optional_fields
    (float_of_str : string → option spec_float)
    (reader : list (dict string)) (neos : list NearEarthObject)
    (i : ref) (row : dict string) (o : NearEarthObject) :
  Extract.load_neos float_of_str reader = inr neos →
  reader !! i = Some row → neos !! i = Some o →
  name o ≠ Some "" ∧
  (name o = None ↔ get "name" row = Some "") ∧
  (∀ nm, name o = Some nm → get "name" row = Some nm) ∧
  (get "diameter" row = Some "" → diameter o = S754_nan) ∧
  (∀ d, get "diameter" row = Some d → d ≠ "" →
        float_of_str d = Some (diameter o)).
Proof.
  intros Hload%for_each_inr Hrow Ho.
  destruct (Forall2_lookup_l _ _ _ _ _ Hload Hrow) as (o' & Ho' & Hbody).
  assert (o' = o) as -> by congruence.
  apply neo_of_row_inr in Hbody
    as (d & pha & nm & pdes & diam & Hd & _ & Hnm & _ & Hdiam & ->).
  simpl. rewrite Hnm, Hd. split_and!.
  - by case_decide; [|intros [= ->]].
  - case_decide as Hn; [by subst|]. split; [done|]. by intros [= ->].
  - intros nm'. case_decide; [done|]. by intros [= ->].
  - intros [= ->]. rewrite decide_True in Hdiam by done. congruence.
  - intros d' [= <-] Hne. by rewrite decide_False in Hdiam.
Qed.

Lemma load_neos_optional_fields_witness :
  name Samples.unnamed_neo ≠ Some "" ∧
  (name Samples.unnamed_neo = None ↔
   get "name" [("pdes", "2020AB"); ("name", ""); ("pha", "N");
               ("diameter", "")] = Some "") ∧
  (∀ nm, name Samples.unnamed_neo = Some nm →
         get "name" [("pdes", "2020AB"); ("name", ""); ("pha", "N");
                     ("diameter", "")] = Some nm) ∧
  (get "diameter" [("pdes", "2020AB"); ("name", ""); ("pha", "N");
                   ("diameter", "")] = Some "" →
   diameter Samples.unnamed_neo = S754_nan) ∧
  (∀ d, get "diameter" [("pdes", "2020AB"); ("name", ""); ("pha", "N");
                        ("diameter", "")] = Some d → d ≠ "" →
        LoaderSamples.toy_float d = Some (diameter Samples.unnamed_neo)).
Proof.
  apply (load_neos_optional_fields LoaderSamples.toy_float
           LoaderSamples.csv_rows
           [Samples.unnamed_neo;
            new_neo "433" (Some "Eros") Samples.float_ten true] 0).
  - by vm_compute.
  - reflexivity.
  - reflexivity.
Defined.

(** X21: [load_neos] returns exactly when every row has the four columns
    and a diameter that is empty or that [float] accepts; otherwise it ends
    with the exception of the first row that fails, which is a [KeyError]
    for one of the four columns or a [ValueError], and nothing is returned
    for the rows before it. *)
Theorem load_neos_succeeds_iff
    (float_of_str : string → option spec_float)
    (reader : list (dict string)) :
  ((∃ neos, Extract.load_neos float_of_str reader = inr neos) ↔
   Forall (λ row,
     (∃ d, get "diameter" row = Some d ∧
           (d = "" ∨ is_Some (float_of_str d))) ∧
     is_Some (get "pha" row) ∧ is_Some (get "name" row) ∧
     is_Some (get "pdes" row)) reader) ∧
  (∀ e, Extract.load_neos float_of_str reader = inl e →
     ∃ k row, reader !! k = Some row ∧
       Extract.neo_of_row float_of_str row = inl e ∧
       (∃ neos, Extract.load_neos float_of_str (take k reader) = inr neos) ∧
       (e = Extract.ValueError ∨
        ∃ c, c ∈ ["diameter"; "pha"; "name"; "pdes"] ∧
             e = Extract.RowKeyError c ∧ get c row = None)).
Proof.
  split.
  - induction reader as [|row reader IH].
    + split; [constructor | by eexists].
    + rewrite Forall_cons, <- IH. unfold Extract.load_neos. simpl. split.
      * intros [neos Hload].
        destruct (Extract.neo_of_row float_of_str row) as [e|o] eqn:Hrow;
          [done|].
        apply neo_of_row_inr in Hrow
          as (d & pha & nm & pdes & diam & Hd & Hpha & Hnm & Hpdes & Hdiam & _).
        split.
        -- rewrite Hpha, Hnm, Hpdes. split_and!; [|by eexists..].
           exists d. split; [done|]. case_decide; [by left|right; by eexists].
        -- destruct (Extract.for_each _ reader); [done|by eexists].
      * intros [((d & Hd & Hdiam) & [pha Hpha] & [nm Hnm] & [pdes Hpdes])
                [neos Hneos]].
        unfold Extract.load_neos in Hneos. rewrite Hneos.
        assert (∃ diam, (if decide (d = "") then Some S754_nan
                         else float_of_str d) = Some diam) as [diam Hd'].
        { case_decide; [by eexists|]. by destruct Hdiam as [?|[? ?]]; eauto. }
        assert (Extract.neo_of_row float_of_str row
                = inr (new_neo pdes (if decide (nm = "") then None else Some nm)
                         diam (bool_decide (pha = "Y")))) as ->.
        { apply neo_of_row_inr. by exists d, pha, nm, pdes, diam. }
        by eexists.
  - intros e (k & row & Hk & Hrow & Hpre)%for_each_inl.
    exists k, row. split_and!; [done..| |by apply (neo_of_row_exn _ _ _ Hrow)].
    assert (∃ neos, Forall2 (λ x y, Extract.neo_of_row float_of_str x = inr y)
                      (take k reader) neos) as [neos Hneos].
    { clear Hk Hrow. revert k Hpre.
      induction reader as [|r reader IH]; intros k Hpre.
      - exists []. rewrite take_nil. constructor.
      - destruct k as [|k]; [exists []; constructor|].
        destruct (Hpre 0 r) as [y Hy]; [lia|done|].
        destruct (IH k) as [ys Hys].
        { intros j x' Hj Hx'. apply (Hpre (S j)); [lia|done]. }
        exists (y :: ys). by constructor. }
    exists neos. by apply for_each_inr.
Qed.

Section LoadApproaches.
Import Extract.
Variable float_of_str : string → option spec_float.
Variable cd_to_datetime : string → load_exn + datetime.
Implicit Types (fs : list string) (row : list string) (f : string)
  (idx : field_positions) (js : cad_json).

Lemma index_None f fs : index f fs = None ↔ f ∉ fs.
Proof.
  induction fs as [|g fs IH]; simpl.
  - split; [intros _ ?%elem_of_nil | ]; done.
  - rewrite not_elem_of_cons. case_decide as Hg.
    + split; [done | by intros [[] _]].
    + rewrite fmap_None, IH. split; [by intros ? | by intros [_ ?]].
Qed.

Lemma field_indices_inr fs idx :
  field_indices fs = inr idx ↔
  index "des" fs = Some (des_idx idx) ∧ index "cd" fs = Some (cd_idx idx) ∧
  index "dist" fs = Some (dist_idx idx) ∧
  index "v_rel" fs = Some (v_rel_idx idx).
Proof.
  unfold field_indices, field_index. split.
  - destruct (index "des" fs); [|done]. destruct (index "cd" fs); [|done].
    destruct (index "dist" fs); [|done]. destruct (index "v_rel" fs); [|done].
    by intros [= <-].
  - intros (-> & -> & -> & ->). by destruct idx.
Qed.

Lemma field_indices_inl fs e :
  field_indices fs = inl e ↔
  e = ValueError ∧ ∃ f, f ∈ required_fields ∧ f ∉ fs.
Proof.
  unfold field_indices, field_index. split.
  - destruct (index "des" fs) eqn:H1.
    2:{ intros [= <-]. split; [done|]. exists "des".
        split; [by_decision | by apply index_None]. }
    destruct (index "cd" fs) eqn:H2.
    2:{ intros [= <-]. split; [done|]. exists "cd".
        split; [by_decision | by apply index_None]. }
    destruct (index "dist" fs) eqn:H3.
    2:{ intros [= <-]. split; [done|]. exists "dist".
        split; [by_decision | by apply index_None]. }
    destruct (index "v_rel" fs) eqn:H4; [done|].
    intros [= <-]. split; [done|]. exists "v_rel".
    split; [by_decision | by apply index_None].
  - intros [-> (f & Hf & Hout%index_None)].
    unfold required_fields in Hf.
    destruct (index "des" fs) eqn:H1; [|done].
    destruct (index "cd" fs) eqn:H2; [|done].
    destruct (index "dist" fs) eqn:H3; [|done].
    destruct (index "v_rel" fs) eqn:H4; [|done].
    repeat (apply elem_of_cons in Hf as [->|Hf]); try congruence.
    by apply elem_of_nil in Hf.
Qed.

(** With the positions resolved, reading a cell by position is reading it
    by name. *)
Lemma cell_at_named fs row f i :
  index f fs = Some i →
  cell_at row i = match named_cell fs row f with
                  | Some c => inr c
                  | None => inl IndexError
                  end.
Proof. intros Hi. unfold cell_at, named_cell. rewrite Hi. done. Qed.

Lemma approach_of_row_named fs idx row :
  field_indices fs = inr idx →
  approach_of_row float_of_str cd_to_datetime idx row
  = approach_of_cells float_of_str cd_to_datetime (named_cell fs row).
Proof.
  intros (H1 & H2 & H3 & H4)%field_indices_inr.
  unfold approach_of_row, approach_of_cells.
  rewrite (cell_at_named fs row "des"), (cell_at_named fs row "cd"),
    (cell_at_named fs row "dist"), (cell_at_named fs row "v_rel") by done.
  destruct (named_cell fs row "des"); [|done].
  destruct (named_cell fs row "cd"); [|done].
  destruct (named_cell fs row "dist"); [|done].
  destruct (named_cell fs row "v_rel"); [|done].
  destruct (cd_to_datetime _); [done|].
  destruct (float_of_str _); [|done]. by destruct (float_of_str _).
Qed.

Lemma approach_of_cells_ext (cell cell' : string → option string) :
  (∀ f, f ∈ required_fields → cell f = cell' f) →
  approach_of_cells float_of_str cd_to_datetime cell
  = approach_of_cells float_of_str cd_to_datetime cell'.
Proof.
  intros Hext. unfold approach_of_cells.
  by rewrite !Hext by by_decision.
Qed.

Lemma for_each_ext2 {A A' B} (body : A → load_exn + B)
    (body' : A' → load_exn + B) (xs : list A) (xs' : list A') :
  Forall2 (λ x x', body x = body' x') xs xs' →
  for_each body xs = for_each body' xs'.
Proof.
  induction 1 as [|x x' xs xs' Hx _ IH]; [done|]. simpl. by rewrite Hx, IH.
Qed.
End LoadApproaches.

(** X22: a required field missing from the document's field list makes
    [load_approaches] end in [ValueError] before any row is read - also when
    there are no rows; and with the four fields present, the only other
    ways to fail are a row that is too short ([IndexError]) or a cell that
    does not convert. *)
Theorem load_approaches_missing_field
    (float_of_str : string → option spec_float)
    (cd_to_datetime : string → Extract.load_exn + datetime)
    (js : Extract.cad_json) :
  ((∃ f, f ∈ Extract.required_fields ∧ f ∉ Extract.fields js) →
   Extract.load_approaches float_of_str cd_to_datetime js
   = inl Extract.ValueError) ∧
  ((∀ f, f ∈ Extract.required_fields → f ∈ Extract.fields js) →
   Extract.data js = [] →
   Extract.load_approaches float_of_str cd_to_datetime js = inr []).
Proof.
  unfold Extract.load_approaches. split.
  - intros Hmiss.
    by rewrite (proj2 (field_indices_inl (Extract.fields js) Extract.ValueError)
                  (conj eq_refl Hmiss)).
  - intros Hall ->.
    destruct (Extract.field_indices (Extract.fields js)) as [e|idx] eqn:Hidx;
      [|done].
    apply field_indices_inl in Hidx as [_ (f & Hf & Hout)].
    by destruct (Hout (Hall f Hf)).
Qed.

(** X23: the columns are found by name, not by position.  Two documents
    that both have the four required fields, have the same number of rows
    and hold the same cells under those four names, row by row, load to the
    same result - whatever the order of their columns and whatever other
    columns they have. *)
Theorem load_approaches_by_name
    (float_of_str : string → option spec_float)
    (cd_to_datetime : string → Extract.load_exn + datetime)
    (js js' : Extract.cad_json) :
  (∀ f, f ∈ Extract.required_fields →
        f ∈ Extract.fields js ∧ f ∈ Extract.fields js') →
  Forall2 (λ row row', ∀ f, f ∈ Extract.required_fields →
             Extract.named_cell (Extract.fields js) row f
             = Extract.named_cell (Extract.fields js') row' f)
          (Extract.data js) (Extract.data js') →
  Extract.load_approaches float_of_str cd_to_datetime js
  = Extract.load_approaches float_of_str cd_to_datetime js'.
Proof.
  intros Hfields Hrows. unfold Extract.load_approaches.
  destruct (Extract.field_indices (Extract.fields js)) as [e|idx] eqn:Hidx.
  { apply field_indices_inl in Hidx as [_ (f & Hf & Hout)].
    by destruct (Hout (proj1 (Hfields f Hf))). }
  destruct (Extract.field_indices (Extract.fields js')) as [e|idx'] eqn:Hidx'.
  { apply field_indices_inl in Hidx' as [_ (f & Hf & Hout)].
    by destruct (Hout (proj2 (Hfields f Hf))). }
  apply for_each_ext2. eapply Forall2_impl; [exact Hrows|].
  intros row row' Hcells. simpl in Hcells.
  rewrite (approach_of_row_named _ _ _ _ _ Hidx),
    (approach_of_row_named _ _ _ _ _ Hidx').
  by apply approach_of_cells_ext.
Qed.

(** The sample document and the same rows with the columns reordered and
    one column dropped. *)
Lemma load_approaches_by_name_witness :
  Extract.load_approaches LoaderSamples.toy_float LoaderSamples.toy_cd
    LoaderSamples.cad
  = Extract.load_approaches LoaderSamples.toy_float LoaderSamples.toy_cd
      LoaderSamples.cad_reordered.
Proof.
  apply (load_approaches_by_name LoaderSamples.toy_float LoaderSamples.toy_cd
           LoaderSamples.cad LoaderSamples.cad_reordered).
  - intros f Hf. unfold Extract.required_fields in Hf.
    repeat (apply elem_of_cons in Hf as [->|Hf]);
      [split; by_decision..|by apply elem_of_nil in Hf].
  - repeat constructor; intros f Hf; unfold Extract.required_fields in Hf;
      repeat (apply elem_of_cons in Hf as [->|Hf]);
      try reflexivity; by apply elem_of_nil in Hf.
Defined.

(** X24: [load_approaches] builds one approach per row, in row order.  Each
    approach is unlinked, has the row's "des" cell as its designation, and
    has the time, distance and velocity that [cd_to_datetime] and [float]
    make of the row's "cd", "dist" and "v_rel" cells. *)
Theorem load_approaches_rows
    (float_of_str : string → option spec_float)
    (cd_to_datetime : string → Extract.load_exn + datetime)
    (js : Extract.cad_json) (cas : list CloseApproach) :
  Extract.load_approaches float_of_str cd_to_datetime js = inr cas →
  length cas = length (Extract.data js) ∧
  ∀ r row, Extract.data js !! r = Some row →
    ∃ a, cas !! r = Some a ∧ neo a = None ∧
      Extract.named_cell (Extract.fields js) row "des"
      = Some (_designation a) ∧
      (∃ c, Extract.named_cell (Extract.fields js) row "cd" = Some c ∧
            cd_to_datetime c = inr (time a)) ∧
      (∃ c, Extract.named_cell (Extract.fields js) row "dist" = Some c ∧
            float_of_str c = Some (distance a)) ∧
      (∃ c, Extract.named_cell (Extract.fields js) row "v_rel" = Some c ∧
            float_of_str c = Some (velocity a)).
Proof.
  unfold Extract.load_approaches.
  destruct (Extract.field_indices (Extract.fields js)) as [e|idx] eqn:Hidx;
    [done|].
  intros Hload%for_each_inr. split; [symmetry; by eapply Forall2_length|].
  intros r row Hrow.
  destruct (Forall2_lookup_l _ _ _ _ _ Hload Hrow) as (a & Ha & Hbody).
  exists a. split; [done|].
  rewrite (approach_of_row_named _ _ _ _ _ Hidx) in Hbody.
  unfold Extract.approach_of_cells in Hbody.
  destruct (Extract.named_cell _ row "des") as [des|]; [|done].
  destruct (Extract.named_cell _ row "cd") as [cd|]; [|done].
  destruct (Extract.named_cell _ row "dist") as [dist|]; [|done].
  destruct (Extract.named_cell _ row "v_rel") as [v_rel|]; [|done].
  destruct (cd_to_datetime cd) as [|t] eqn:Ht; [done|].
  destruct (float_of_str dist) as [x|] eqn:Hx; [|done].
  destruct (float_of_str v_rel) as [y|] eqn:Hy; [|done].
  injection Hbody as <-. simpl. split_and!; [done..| | |]; by eexists.
Qed.

Lemma load_approaches_rows_witness :
  length [Samples.approach_433; Samples.approach_2020AB]
  = length (Extract.data LoaderSamples.cad) ∧
  ∀ r row, Extract.data LoaderSamples.cad !! r = Some row →
    ∃ a, [Samples.approach_433; Samples.approach_2020AB] !! r = Some a ∧
      neo a = None ∧
      Extract.named_cell (Extract.fields LoaderSamples.cad) row "des"
      = Some (_designation a) ∧
      (∃ c, Extract.named_cell (Extract.fields LoaderSamples.cad) row "cd"
            = Some c ∧ LoaderSamples.toy_cd c = inr (time a)) ∧
      (∃ c, Extract.named_cell (Extract.fields LoaderSamples.cad) row "dist"
            = Some c ∧ LoaderSamples.toy_float c = Some (distance a)) ∧
      (∃ c, Extract.named_cell (Extract.fields LoaderSamples.cad) row "v_rel"
            = Some c ∧ LoaderSamples.toy_float c = Some (velocity a)).
Proof.
  apply (load_approaches_rows LoaderSamples.toy_float LoaderSamples.toy_cd
           LoaderSamples.cad).
  by vm_compute.
Defined.

(** ** From the loaders to the database *)

Section Pipeline.
Import Extract.
Variable float_of_str : string → option spec_float.
Variable cd_to_datetime : string → load_exn + datetime.
Implicit Types (reader : list (dict string)) (js : cad_json)
  (neos : list NearEarthObject) (cas : list CloseApproach).

(** The objects of [load_neos] and the rows they come from. *)
Lemma load_neos_elem reader neos o :
  load_neos float_of_str reader = inr neos →
  o ∈ neos ↔ ∃ row, row ∈ reader ∧ neo_of_row float_of_str row = inr o.
Proof.
  intros Hload%for_each_inr. split.
  - intros [i Hi]%list_elem_of_lookup.
    destruct (Forall2_lookup_r _ _ _ _ _ Hload Hi) as (row & Hrow & Hbody).
    exists row. split; [by eapply list_elem_of_lookup_2|done].
  - intros (row & [i Hi]%list_elem_of_lookup & Hbody).
    destruct (Forall2_lookup_l _ _ _ _ _ Hload Hi) as (o' & Ho' & Hbody').
    assert (o' = o) as -> by congruence. by eapply list_elem_of_lookup_2.
Qed.

(** The approaches of [load_approaches] and the rows they come from. *)
Lemma load_approaches_elem js cas a :
  load_approaches float_of_str cd_to_datetime js = inr cas →
  a ∈ cas ↔
  ∃ row, row ∈ data js ∧
    approach_of_cells float_of_str cd_to_datetime (named_cell (fields js) row)
    = inr a.
Proof.
  unfold load_approaches.
  destruct (field_indices (fields js)) as [e|idx] eqn:Hidx; [done|].
  intros Hload%for_each_inr. split.
  - intros [i Hi]%list_elem_of_lookup.
    destruct (Forall2_lookup_r _ _ _ _ _ Hload Hi) as (row & Hrow & Hbody).
    exists row. split; [by eapply list_elem_of_lookup_2|].
    by rewrite <- (approach_of_row_named _ _ _ _ _ Hidx).
  - intros (row & [i Hi]%list_elem_of_lookup & Hbody).
    destruct (Forall2_lookup_l _ _ _ _ _ Hload Hi) as (a' & Ha' & Hbody').
    rewrite (approach_of_row_named _ _ _ _ _ Hidx) in Hbody'.
    assert (a' = a) as -> by congruence. by eapply list_elem_of_lookup_2.
Qed.

Lemma approach_of_cells_inr (cell : string → option string) a :
  approach_of_cells float_of_str cd_to_datetime cell = inr a →
  cell "des" = Some (_designation a) ∧ neo a = None.
Proof.
  unfold approach_of_cells.
  destruct (cell "des"); [|done]. destruct (cell "cd"); [|done].
  destruct (cell "dist"); [|done]. destruct (cell "v_rel"); [|done].
  destruct (cd_to_datetime _); [done|].
  destruct (float_of_str _); [|done]. destruct (float_of_str _); [|done].
  by intros [= <-].
Qed.
End Pipeline.

(** X25: the loaders feed the constructor what it expects, and more.  The
    objects and approaches they build are unlinked.  A database over them is
    constructed exactly when every row's "des" cell is the "pdes" of some
    CSV row.  In such a database no object is found under the empty string,
    while [get_neo_by_name(None)] finds an object exactly when some CSV row
    has an empty name. *)
Theorem loaded_database
    (float_of_str : string → option spec_float)
    (cd_to_datetime : string → Extract.load_exn + datetime)
    (reader : list (dict string)) (js : Extract.cad_json)
    (neos : list NearEarthObject) (cas : list CloseApproach) :
  Extract.load_neos float_of_str reader = inr neos →
  Extract.load_approaches float_of_str cd_to_datetime js = inr cas →
  Forall (λ o, approaches o = []) neos ∧
  Forall (λ a, neo a = None) cas ∧
  ((∃ db, __init__ neos cas = Returned db) ↔
   ∀ row, row ∈ Extract.data js →
     ∃ r, r ∈ reader ∧
          Extract.named_cell (Extract.fields js) row "des" = get "pdes" r) ∧
  ∀ db, __init__ neos cas = Returned db →
    get_neo_by_name db (Some "") = None ∧
    (is_Some (get_neo_by_name db None) ↔
     ∃ r, r ∈ reader ∧ get "name" r = Some "").
Proof.
  intros Hneos Hcas.
  pose proof (load_neos_elem float_of_str reader neos) as Hn.
  pose proof (load_approaches_elem float_of_str cd_to_datetime js cas) as Ha.
  split_and!.
  - apply Forall_forall. intros o (row & _ & Ho)%Hn; [|done].
    by apply neo_of_row_inr in Ho as (? & ? & ? & ? & ? & _ & _ & _ & _ & _ & ->).
  - apply Forall_forall. intros a (row & _ & Hrow)%Ha; [|done].
    by apply approach_of_cells_inr in Hrow as [_ ?].
  - rewrite init_link. split.
    + intros [db Hall%link_Returned_inv] row Hrow. simpl in Hall.
      assert (∃ a, Extract.approach_of_cells float_of_str cd_to_datetime
                     (Extract.named_cell (Extract.fields js) row) = inr a)
        as [a Hbody].
      { unfold Extract.load_approaches in Hcas.
        destruct (Extract.field_indices (Extract.fields js)) as [e|idx] eqn:Hidx;
          [done|].
        apply for_each_inr in Hcas. apply list_elem_of_lookup in Hrow as [i Hi].
        destruct (Forall2_lookup_l _ _ _ _ _ Hcas Hi) as (a & _ & Hbody).
        exists a. by rewrite <- (approach_of_row_named _ _ _ _ _ Hidx). }
      assert (a ∈ cas) as Hin by (apply Ha; [done|by exists row]).
      apply (proj1 (Forall_forall _ _) Hall) in Hin.
      apply index_by_is_Some in Hin as (o & (r & Hr & Ho)%Hn & Hd); [|done].
      exists r. split; [done|].
      apply approach_of_cells_inr in Hbody as [-> _].
      apply neo_of_row_inr in Ho
        as (? & ? & ? & pdes & ? & _ & _ & _ & -> & _ & ->).
      simpl in Hd. by rewrite Hd.
    + intros Hall. apply link_returns, Forall_forall. intros a Hin. simpl.
      apply Ha in Hin as (row & Hrow & Hbody); [|done].
      destruct (Hall row Hrow) as (r & Hr & Hcell).
      apply approach_of_cells_inr in Hbody as [Hdes _].
      assert (∃ o, Extract.neo_of_row float_of_str r = inr o) as [o Ho].
      { apply for_each_inr in Hneos. apply list_elem_of_lookup in Hr as [i Hi].
        destruct (Forall2_lookup_l _ _ _ _ _ Hneos Hi) as (o & _ & Hbody).
        by exists o. }
      apply index_by_is_Some. exists o. split; [apply Hn; [done|by exists r]|].
      apply neo_of_row_inr in Ho
        as (? & ? & ? & pdes & ? & _ & _ & _ & Hpdes & _ & ->).
      simpl. congruence.
  - intros db Hinit. destruct (init_indexes _ _ _ Hinit) as [Hname _].
    unfold get_neo_by_name. rewrite Hname. split.
    + apply index_by_None. intros o (row & _ & Ho)%Hn; [|done].
      apply neo_of_row_inr in Ho
        as (? & ? & nm & ? & ? & _ & _ & _ & _ & _ & ->).
      simpl. by case_decide; [|intros [= ->]].
    + split.
      * intros [i (o & Ho & Hnone & _)%index_by_Some].
        apply list_elem_of_lookup_2 in Ho.
        apply Hn in Ho as (row & Hrow & Ho); [|done].
        exists row. split; [done|].
        apply neo_of_row_inr in Ho
          as (? & ? & nm & ? & ? & _ & _ & Hnm & _ & _ & ->).
        simpl in Hnone. rewrite Hnm. by case_decide; subst.
      * intros (r & Hr & Hnm).
        destruct (index_by name neos !! None) as [i|] eqn:Hi; [by eexists|].
        exfalso.
        assert (∃ o, Extract.neo_of_row float_of_str r = inr o) as [o Ho].
        { apply for_each_inr in Hneos. apply list_elem_of_lookup in Hr as [i Hi'].
          destruct (Forall2_lookup_l _ _ _ _ _ Hneos Hi') as (o & _ & Hbody).
          by exists o. }
        apply (proj1 (index_by_None name neos None) Hi o);
          [apply Hn; [done|by exists r]|].
        apply neo_of_row_inr in Ho
          as (? & ? & nm & ? & ? & _ & _ & Hnm' & _ & _ & ->).
        simpl. rewrite Hnm in Hnm'. injection Hnm' as <-.
        by rewrite decide_True.
Qed.

(** The two sample files: both CSV rows are matched, one has no name. *)
Lemma loaded_database_witness :
  Forall (λ o, approaches o = [])
    [Samples.unnamed_neo; new_neo "433" (Some "Eros") Samples.float_ten true] ∧
  Forall (λ a, neo a = None) [Samples.approach_433; Samples.approach_2020AB] ∧
  ((∃ db, __init__
            [Samples.unnamed_neo;
             new_neo "433" (Some "Eros") Samples.float_ten true]
            [Samples.approach_433; Samples.approach_2020AB] = Returned db) ↔
   ∀ row, row ∈ Extract.data LoaderSamples.cad →
     ∃ r, r ∈ LoaderSamples.csv_rows ∧
          Extract.named_cell (Extract.fields LoaderSamples.cad) row "des"
          = get "pdes" r) ∧
  ∀ db, __init__
          [Samples.unnamed_neo;
           new_neo "433" (Some "Eros") Samples.float_ten true]
          [Samples.approach_433; Samples.approach_2020AB] = Returned db →
    get_neo_by_name db (Some "") = None ∧
    (is_Some (get_neo_by_name db None) ↔
     ∃ r, r ∈ LoaderSamples.csv_rows ∧ get "name" r = Some "").
Proof.
  apply (loaded_database LoaderSamples.toy_float LoaderSamples.toy_cd
           LoaderSamples.csv_rows LoaderSamples.cad).
  - by vm_compute.
  - by vm_compute.
Defined.
